(** * Provenance data scripts: name normalisation, game lookup, artwork
      download and database import

    A shallow embedding of the parts of [rom_downloader.py] and
    [convert_to_sqlite.py] that carry logic, together with the properties
    the specification states about them.

    Conventions.
    - A Python [str] is a list of Unicode code points ([N]).  String
      constants of the source are written with [lit].
    - Library functions the scripts call ([os.path.splitext], [re.sub],
      [str.replace], [str.split], [str.lower], [pathlib], SQLite's [LOWER]
      and [LIKE]) are modelled by functions that follow the documented
      behaviour of the library on POSIX.  [str.lower] is exact on U+0000
      to U+00FF and on characters without case; text handed to SQLite is
      taken not to contain U+0000.
    - A database table is the list of its rows in the order a scan yields
      them.
    - Dictionaries of the scripts and the file system are finite maps.
    - The network and the thread pool are parameters: the answer to each
      request, and the order in which the workers perform the tasks. *)

From Stdlib Require Import Strings.String Strings.Ascii.
From Stdlib Require DecimalString.
From Stdlib Require Import ZArith NArith List Bool Lia Permutation Sorted.
From stdpp Require Import gmap.
Import ListNotations.

Local Open Scope N_scope.

(** ** Strings *)

Abbreviation str := (list N).

(** A constant of the source, as code points (ASCII constants only). *)
Definition lit (s : String.string) : str :=
  List.map Ascii.N_of_ascii (String.list_ascii_of_string s).
Arguments lit s%_string_scope.

Definition str_eqb (a b : str) : bool := bool_decide (a = b).

(** [Py_UNICODE_ISSPACE]: what [\s], [str.split()] and [str.strip()] treat
    as white space. *)
Definition is_space (c : N) : bool :=
  ((9 <=? c) && (c <=? 13)) || ((28 <=? c) && (c <=? 32))
  || (c =? 133) || (c =? 160) || (c =? 5760)
  || ((8192 <=? c) && (c <=? 8202))
  || (c =? 8232) || (c =? 8233) || (c =? 8239) || (c =? 8287) || (c =? 12288).

(** The regular-expression classes [[a-z]] and [[A-Z]]. *)
Definition is_az (c : N) : bool := (97 <=? c) && (c <=? 122).
Definition is_AZ (c : N) : bool := (65 <=? c) && (c <=? 90).

(** SQLite's built-in [LOWER]: ASCII letters only. *)
Definition sql_lower_char (c : N) : N := if is_AZ c then c + 32 else c.
Definition sql_lower (s : str) : str := List.map sql_lower_char s.

(** Python's [str.lower] on the code points U+0000 to U+00FF (ASCII and the
    Latin-1 capitals U+00C0 to U+00DE except the multiplication sign);
    code points above that range are left as they are, although
    [str.lower] folds many of them (U+212A to [k], U+0160 to U+0161): a
    statement that depends on how a name is folded is made for names in
    the range U+0000 to U+00FF ([latin1] below). *)
Definition py_lower_char (c : N) : N :=
  if is_AZ c then c + 32
  else if (192 <=? c) && (c <=? 222) && negb (c =? 215) then c + 32
  else c.
Definition lower (s : str) : str := List.map py_lower_char s.

(** [prefixb p s]: [s.startswith(p)]. *)
Fixpoint prefixb (p s : str) : bool :=
  match p, s with
  | [], _ => true
  | _ :: _, [] => false
  | a :: p', b :: s' => (a =? b) && prefixb p' s'
  end.

(** [contains p s]: [p in s], a verbatim substring test. *)
Fixpoint contains (p s : str) : bool :=
  prefixb p s || match s with [] => false | _ :: t => contains p t end.

(** *** [str.rfind] and slices *)

Fixpoint rfind_go (c : N) (s : str) (i last : Z) : Z :=
  match s with
  | [] => last
  | x :: t => rfind_go c t (i + 1)%Z (if x =? c then i else last)
  end.

(** [s.rfind(c)] for a one-character [c]: the last index, or [-1]. *)
Definition rfind (c : N) (s : str) : Z := rfind_go c s 0%Z (-1)%Z.

(** [s[a:b]] for [0 <= a]. *)
Definition slice (s : str) (a b : Z) : str :=
  firstn (Z.to_nat (b - a)) (skipn (Z.to_nat a) s).

(** *** [os.path.splitext] (posixpath: [sep = '/'], no [altsep]) *)

Definition splitext (p : str) : str * str :=
  let sepIndex := rfind 47 p in
  let dotIndex := rfind 46 p in
  if (sepIndex <? dotIndex)%Z
     && existsb (fun c => negb (c =? 46)) (slice p (sepIndex + 1) dotIndex)
  then (firstn (Z.to_nat dotIndex) p, skipn (Z.to_nat dotIndex) p)
  else (p, []).

(** *** [re.sub(r'\s*\([^)]*\)\s*$', '', name)] *)

(** [[^)]*\)\s*$] at the head of [s]. *)
Fixpoint group_tail (s : str) : bool :=
  match s with
  | [] => false
  | c :: t => if c =? 41 then forallb is_space t else group_tail t
  end.

(** The whole pattern at the head of [s]. *)
Fixpoint group_at (s : str) : bool :=
  match s with
  | [] => false
  | c :: t =>
      if c =? 40 then group_tail t
      else if is_space c then group_at t
      else false
  end.

(** The substitution: the leftmost position where the pattern matches; the
    match runs to the end of the string and is replaced by nothing. *)
Fixpoint strip_paren (s : str) : str :=
  match s with
  | [] => []
  | c :: t => if group_at s then [] else c :: strip_paren t
  end.

(** *** [str.replace(old, new)] *)

Fixpoint replace_go (old new : str) (skip : nat) (s : str) : str :=
  match s with
  | [] => []
  | c :: t =>
      match skip with
      | S k => replace_go old new k t
      | O =>
          if prefixb old s
          then new ++ replace_go old new (length old - 1)%nat t
          else c :: replace_go old new 0%nat t
      end
  end.

Definition replace (old new s : str) : str :=
  match old with
  | [] => new ++ flat_map (fun c => c :: new) s
  | _ :: _ => replace_go old new 0%nat s
  end.

(** *** [re.sub(r'([a-z])([A-Z])', r'\1 \2', name)] *)

Fixpoint camel_split (s : str) : str :=
  match s with
  | [] => []
  | a :: rest =>
      match rest with
      | [] => [a]
      | b :: t =>
          if is_az a && is_AZ b then a :: 32 :: b :: camel_split t
          else a :: camel_split rest
      end
  end.

(** *** [str.split()], [sep.join] and [str.strip()] *)

Fixpoint split_go (word s : str) : list str :=
  match s with
  | [] => match word with [] => [] | _ :: _ => [word] end
  | c :: t =>
      if is_space c
      then match word with
           | [] => split_go [] t
           | _ :: _ => word :: split_go [] t
           end
      else split_go (word ++ [c]) t
  end.

Definition split_ws (s : str) : list str := split_go [] s.

Fixpoint join (sep : str) (l : list str) : str :=
  match l with
  | [] => []
  | w :: r => match r with [] => w | _ :: _ => w ++ sep ++ join sep r end
  end.

Fixpoint lstrip (s : str) : str :=
  match s with
  | [] => []
  | c :: t => if is_space c then lstrip t else s
  end.

Definition strip (s : str) : str := rev (lstrip (rev (lstrip s))).

(** ** The name normaliser: [ROMDownloader.clean_game_name] *)

Definition suffixes : list str :=
  [ lit "-latest";
    lit "by MooglyGuy (PD)";
    lit "_Win64";
    lit "(Nintendo, Wide Screen)";
    lit "(VTech, Time & Fun)";
    lit "(Gakken, LCD Card Game)";
    lit "(Tomytronic)";
    lit "(Nintendo, Panorama Screen)";
    lit "(Nintendo, Table Top)";
    lit "(Mattel Electronics)";
    lit "(VTech, Electronic Tini-Arcade)";
    lit "(VTech, Sporty Time & Fun)";
    lit "(VTech, Explorer Time & Fun)";
    lit "(Bandai, LSI Game Double Play)" ].

(** [for suffix in l: name = name.replace(suffix, '')] *)
Definition remove_suffixes (l : list str) (name : str) : str :=
  fold_left (fun n suffix => replace suffix [] n) l name.

(** The statements of [clean_game_name] after the parenthesised group is
    stripped (underscores, camel case, suffixes, white space), with the
    suffix list [l]. *)
Definition finish_with (l : list str) (name : str) : str :=
  let name := replace (lit "_") (lit " ") name in
  let name := camel_split name in
  let name := remove_suffixes l name in
  let name := join (lit " ") (split_ws name) in
  strip name.

(** The body of [clean_game_name] with the suffix list [l]. *)
Definition clean_game_name_with (l : list str) (name : str) : str :=
  let name := fst (splitext name) in
  let name := strip_paren name in
  finish_with l name.

(** ** The database [games.db] *)

(** Rows of the tables created by [create_database].  A nullable column is
    an [option]. *)
Record SystemRow := {
  sys_id : Z;
  sys_name : str;
  sys_alias : option str }.

Record GameRow := {
  game_id : Z;
  game_title : str;
  release_date : option str;
  platform : option Z;
  region_id : option Z;
  country_id : option Z;
  overview : option str;
  youtube : option str;
  players : option Z;
  coop : option str;
  rating : option str }.

Record ArtworkRow := {
  art_id : Z;
  art_game_id : Z;
  art_type : str;
  art_side : option str;
  art_filename : str;
  art_resolution : option str }.

(** Join tables: a row is the pair of its two key columns; [None] is SQL
    [NULL]. *)
Record Database := {
  systems : list SystemRow;
  games : list GameRow;
  game_developers : list (option Z * option Z);
  game_genres : list (option Z * option Z);
  game_publishers : list (option Z * option Z);
  game_alternates : list (option Z * option str);
  game_artwork : list ArtworkRow }.

(** A game row with only the columns the downloader reads. *)
Definition mk_game (id : Z) (title : str) (p : Z) : GameRow :=
  {| game_id := id; game_title := title; release_date := None;
     platform := Some p; region_id := None; country_id := None;
     overview := None; youtube := None; players := None; coop := None;
     rating := None |}.

(** ** The downloader object *)

Record Child := { child_type : str; child_name : str }.

Record CoreSystem := {
  core_name : str;
  children : option (list Child) }.

Record ROMDownloader := {
  artwork_only : bool;
  db_conn : Database;
  cores_data : list CoreSystem;
  system_mapping : gmap str Z }.

(** [ROMDownloader.clean_game_name(self, name)] *)
Definition clean_game_name (self : ROMDownloader) (name : str) : str :=
  clean_game_name_with suffixes name.

(** ** The game resolver: [ROMDownloader.find_game_in_db] *)

(** SQLite's [LIKE] without [ESCAPE]: [%] matches any run of characters,
    [_] any one character, other characters match up to ASCII case.  This
    is [LIKE] on text without U+0000 (SQLite stops reading a pattern or a
    text at that character) and for a pattern of at most 50000 bytes
    (beyond that the statement fails): [sql_text] and [like_pattern_fits]
    below. *)
Fixpoint like (pat text : str) : bool :=
  match pat with
  | [] => match text with [] => true | _ :: _ => false end
  | c :: pat' =>
      if c =? 37 then
        (fix any (t : str) : bool :=
           like pat' t || match t with [] => false | _ :: t' => any t' end)
          text
      else
        match text with
        | [] => false
        | x :: text' =>
            ((c =? 95) || (sql_lower_char c =? sql_lower_char x))
            && like pat' text'
        end
  end.

(** [WHERE platform = ?] *)
Definition on_platform (system_id : Z) (g : GameRow) : bool :=
  match platform g with
  | Some p => (p =? system_id)%Z
  | None => false
  end.

(** [AND LOWER(game_title) = LOWER(?)] *)
Definition exact_title (clean_name : str) (g : GameRow) : bool :=
  str_eqb (sql_lower (game_title g)) (sql_lower clean_name).

(** [AND LOWER(game_title) LIKE LOWER(?)] with the parameter
    [f"%{clean_name}%"]. *)
Definition like_title (clean_name : str) (g : GameRow) : bool :=
  like (sql_lower (37 :: clean_name ++ [37])) (sql_lower (game_title g)).

(** [SELECT id, game_title] *)
Definition id_title (g : GameRow) : Z * str := (game_id g, game_title g).

(** [cursor.fetchone()] on the rows a [SELECT ... WHERE] yields. *)
Definition fetchone (cond : GameRow -> bool) (rows : list GameRow)
  : option (Z * str) :=
  option_map id_title (find cond rows).

(** The two queries, for a name that can be bound to them (it has no
    lone surrogate, which [sqlite3] cannot encode) and a pattern within
    the length SQLite accepts; outside of that the call raises, which is
    not modelled. *)
Definition find_game_in_db (self : ROMDownloader) (game_name : str)
    (system_id : Z) : option (Z * str) :=
  let clean_name := clean_game_name self game_name in
  let result :=
    fetchone (fun g => on_platform system_id g && exact_title clean_name g)
             (games (db_conn self)) in
  match result with
  | Some r => Some r
  | None =>
      fetchone (fun g => on_platform system_id g && like_title clean_name g)
               (games (db_conn self))
  end.

(** ** Platform name resolution: [ROMDownloader.get_system_mapping] *)

(** The dictionary literal [name_variations]. *)
Definition name_variations : gmap str (list str) :=
  list_to_map
  [ (lit "Arcade", [lit "Arcade"; lit "arcade"]);
    (lit "EasyRPG", [lit "RPG Maker"; lit "rpg-maker"]);
    (lit "NEC - PC Engine - TurboGrafx 16",
       [lit "TurboGrafx 16"; lit "turbografx-16"]);
    (lit "Nintendo - Nintendo 64", [lit "Nintendo 64"; lit "nintendo-64"]);
    (lit "Nintendo - Virtual Boy",
       [lit "Nintendo Virtual Boy"; lit "nintendo-virtual-boy"]);
    (lit "Nintendo - GameBoy",
       [lit "Nintendo Game Boy"; lit "nintendo-gameboy"]);
    (lit "Nintendo - GameBoy Advance",
       [lit "Nintendo Game Boy Advance"; lit "nintendo-gameboy-advance"]);
    (lit "Nintendo - Nintendo Entertainment System",
       [lit "Nintendo Entertainment System (NES)"; lit "nes"]);
    (lit "Nintendo - Super Nintendo Entertainment System",
       [lit "Super Nintendo Entertainment System (SNES)"; lit "snes"]);
    (lit "Nintendo - GameCube - Wii", [lit "Nintendo GameCube"; lit "gamecube"]);
    (lit "Nintendo - Nintendo 3DS", [lit "Nintendo 3DS"; lit "nintendo-3ds"]);
    (lit "Nintendo - Pokemon Mini",
       [lit "Nintendo Pok" ++ [8730; 169] ++ lit "mon Mini";
        lit "pokemon-mini"]);
    (lit "Sega - Master System - Mark III",
       [lit "Sega Master System"; lit "master-system"]);
    (lit "Sega - Mega Drive - Genesis", [lit "Sega Mega Drive"; lit "genesis"]);
    (lit "Sega - Game Gear", [lit "Sega Game Gear"; lit "game-gear"]);
    (lit "Sega - Saturn", [lit "Sega Saturn"; lit "saturn"]);
    (lit "Sega - Dreamcast", [lit "Sega Dreamcast"; lit "dreamcast"]);
    (lit "Sony - PlayStation", [lit "Sony Playstation"; lit "playstation"]);
    (lit "Sony - PlayStation Portable",
       [lit "Sony Playstation Portable"; lit "psp"]);
    (lit "Bandai - WonderSwan Color",
       [lit "WonderSwan Color"; lit "wonderswan-color"]);
    (lit "SNK - Neo Geo Pocket", [lit "Neo Geo Pocket"; lit "neo-geo-pocket"]);
    (lit "Coleco - Colecovision", [lit "Colecovision"; lit "colecovision"]);
    (lit "Mattel - Intellivision", [lit "Intellivision"; lit "intellivision"]);
    (lit "GCE - Vectrex", [lit "Vectrex"; lit "vectrex"]);
    (lit "Atari - 2600", [lit "Atari 2600"; lit "atari-2600"]);
    (lit "NEC - PC Engine SuperGrafx",
       [lit "PC Engine SuperGrafx"; lit "supergrafx"]);
    (lit "CHIP-8", [lit "CHIP-8"; lit "chip-8"]);
    (lit "DOS", [lit "DOS"; lit "ms-dos"]);
    (lit "ScummVM", [lit "ScummVM"; lit "scummvm"]);
    (lit "TIC-80", [lit "TIC-80"; lit "tic-80"]);
    (lit "WASM-4", [lit "WASM-4"; lit "wasm-4"]);
    (lit "LowResNX", [lit "LowRes NX"; lit "lowres-nx"]);
    (lit "VaporSpec", [lit "VaporSpec"; lit "vaporspec"]);
    (lit "Uzebox", [lit "Uzebox"; lit "uzebox"]);
    (lit "ChaiLove", [lit "ChaiLove"; lit "chailove"]);
    (lit "Lutro", [lit "Lutro"; lit "lutro"]);
    (lit "Cave Story", [lit "Cave Story"; lit "cave-story"]);
    (lit "Quake", [lit "Quake"; lit "quake"]);
    (lit "Quake II", [lit "Quake II"; lit "quake-2"]);
    (lit "DOOM", [lit "DOOM"; lit "doom"]);
    (lit "Wolfenstein 3D", [lit "Wolfenstein 3D"; lit "wolfenstein-3d"]);
    (lit "Tomb Raider", [lit "Tomb Raider"; lit "tomb-raider"]);
    (lit "Cannonball", [lit "Cannonball"; lit "cannonball"]);
    (lit "Rick Dangerous", [lit "Rick Dangerous"; lit "rick-dangerous"]);
    (lit "Dinothawr", [lit "Dinothawr"; lit "dinothawr"]);
    (lit "Super Bros War", [lit "Super Bros War"; lit "super-bros-war"]);
    (lit "Vircon32", [lit "Vircon32"; lit "vircon32"]);
    (lit "Utilities", [lit "Utilities"; lit "utils"]);
    (lit "MicroW8", [lit "MicroW8"; lit "micro-w8"]);
    (lit "PocketCDG", [lit "PocketCDG"; lit "pocket-cdg"]);
    (lit "Jump 'n Bump", [lit "Jump 'n Bump"; lit "jump-n-bump"]);
    (lit "Video", [lit "Video Player"; lit "video-player"]);
    (lit "Arduous", [lit "Arduino"; lit "arduino"]);
    (lit "Images", [lit "Image Viewer"; lit "image-viewer"]);
    (lit "Handheld Electronic Game",
       [lit "Handheld Electronic Games (LCD)"; lit "lcd-games"]) ].

(** [x in l] for a list of strings. *)
Definition str_in (x : str) (l : list str) : bool := existsb (str_eqb x) l.

(** The test of the first loop:
    [db_system['name'].lower() in [v.lower() for v in variations]
     or db_system['alias'] in variations]. *)
Definition variation_match (variations : list str) (d : SystemRow) : bool :=
  str_in (lower (sys_name d)) (List.map lower variations)
  || match sys_alias d with
     | Some a => str_in a variations
     | None => false
     end.

(** The test of the second loop:
    [system_name.lower() == db_system['name'].lower()
     or system_name.lower() == db_system['alias']]. *)
Definition direct_match (system_name : str) (d : SystemRow) : bool :=
  str_eqb (lower system_name) (lower (sys_name d))
  || match sys_alias d with
     | Some a => str_eqb (lower system_name) a
     | None => false
     end.

(** The first loop over [db_systems], for a name of [name_variations]. *)
Definition match_by_variations (variations : list str)
    (db_systems : list SystemRow) : option SystemRow :=
  find (variation_match variations) db_systems.

Section SystemMapping.

(** [difflib.get_close_matches(word, possibilities, n=1, cutoff=0.6)]:
    the library's similarity ranking is taken as given. *)
Variable get_close_matches : str -> list str -> list str.

(** One iteration of the loop over [cores_data]: the id the system name
    is mapped to, if any. *)
Definition map_system (db_systems : list SystemRow) (system_name : str)
  : option Z :=
  let by_variation :=
    match name_variations !! system_name with
    | Some variations => match_by_variations variations db_systems
    | None => None
    end in
  match by_variation with
  | Some d => Some (sys_id d)
  | None =>
      match find (direct_match system_name) db_systems with
      | Some d => Some (sys_id d)
      | None =>
          let db_system_names :=
            List.map (fun s => lower (sys_name s)) db_systems in
          match get_close_matches (lower system_name) db_system_names with
          | m :: _ =>
              option_map sys_id
                (find (fun d => str_eqb (lower (sys_name d)) m) db_systems)
          | [] => None
          end
      end
  end.

(** [get_system_mapping], on what it reads from the object: the rows of
    [SELECT id, name, alias FROM systems] and [self.cores_data]. *)
Definition get_system_mapping (db_systems : list SystemRow)
    (cores : list CoreSystem) : gmap str Z :=
  fold_left
    (fun mapping system =>
       match map_system db_systems (core_name system) with
       | Some id => <[core_name system := id]> mapping
       | None => mapping
       end)
    cores ∅.

(** [ROMDownloader.__init__], given the database behind ['games.db'] and
    the parsed ['assets.cores.json']. *)
Definition new_downloader (only_artwork : bool) (db : Database)
    (cores : list CoreSystem) : ROMDownloader :=
  {| artwork_only := only_artwork;
     db_conn := db;
     cores_data := cores;
     system_mapping := get_system_mapping (systems db) cores |}.

End SystemMapping.

(** ** Artwork lookup: [ROMDownloader.get_artwork_urls] *)

(** Text comparison of the [BINARY] collation. *)
Fixpoint str_compare (a b : str) : comparison :=
  match a, b with
  | [], [] => Eq
  | [], _ :: _ => Lt
  | _ :: _, [] => Gt
  | x :: a', y :: b' =>
      match x ?= y with
      | Eq => str_compare a' b'
      | c => c
      end
  end.

(** [ORDER BY type, id] *)
Definition art_leb (a b : ArtworkRow) : bool :=
  match str_compare (art_type a) (art_type b) with
  | Lt => true
  | Gt => false
  | Eq => (art_id a <=? art_id b)%Z
  end.

Fixpoint insert_sorted (a : ArtworkRow) (l : list ArtworkRow)
  : list ArtworkRow :=
  match l with
  | [] => [a]
  | b :: l' => if art_leb a b then a :: l else b :: insert_sorted a l'
  end.

Definition order_by_type_id (l : list ArtworkRow) : list ArtworkRow :=
  fold_right insert_sorted [] l.

(** [WHERE game_id = ? AND (type = 'boxart' OR type = 'screenshot')] *)
Definition artwork_wanted (game : Z) (a : ArtworkRow) : bool :=
  (art_game_id a =? game)%Z
  && (str_eqb (art_type a) (lit "boxart")
      || str_eqb (art_type a) (lit "screenshot")).

(** [SELECT filename, type] *)
Record UrlRow := { url_filename : str; url_type : str }.

Definition filename_type (a : ArtworkRow) : UrlRow :=
  {| url_filename := art_filename a; url_type := art_type a |}.

Definition get_artwork_urls (self : ROMDownloader) (game : Z) : list UrlRow :=
  List.map filename_type
    (order_by_type_id
       (List.filter (artwork_wanted game) (game_artwork (db_conn self)))).

(** ** Paths and files *)

(** A [pathlib] path on POSIX: whether it is anchored at the root, and its
    components.  (A root written with exactly two slashes is not told apart
    from the ordinary root.) *)
Record PurePath := { is_abs : bool; parts : list str }.

#[global] Instance PurePath_eq_dec : EqDecision PurePath.
Proof. solve_decision. Defined.

#[global] Instance PurePath_countable : Countable PurePath.
Proof.
  refine (inj_countable' (fun p => (is_abs p, parts p))
            (fun q => {| is_abs := q.1; parts := q.2 |}) _).
  intros []; reflexivity.
Defined.

(** [s.split(sep)] for a one-character separator. *)
Fixpoint split_on (sep : N) (cur s : str) : list str :=
  match s with
  | [] => [cur]
  | c :: t =>
      if c =? sep then cur :: split_on sep [] t
      else split_on sep (cur ++ [c]) t
  end.

(** [Path(s)]: empty components and [.] components are dropped. *)
Definition parse_path (s : str) : PurePath :=
  {| is_abs := prefixb [47] s;
     parts := List.filter (fun p => negb (str_eqb p [] || str_eqb p [46]))
                (split_on 47 [] s) |}.

(** [a / s]: an anchored right operand replaces the left one. *)
Definition joinpath (a : PurePath) (s : str) : PurePath :=
  let b := parse_path s in
  if is_abs b then b
  else {| is_abs := is_abs a; parts := parts a ++ parts b |}.

Definition parent (p : PurePath) : PurePath :=
  {| is_abs := is_abs p; parts := removelast (parts p) |}.

(** The file system: what each path names.  The root and the working
    directory (the paths without components) are directories.  Links and
    [..] components are not interpreted. *)
Inductive node := Dir | File (content : list N).

Abbreviation FS := (gmap PurePath node).

Definition lookup_node (fs : FS) (p : PurePath) : option node :=
  match parts p with
  | [] => Some Dir
  | _ :: _ => fs !! p
  end.

(** [Path.exists()] *)
Definition path_exists (fs : FS) (p : PurePath) : bool :=
  match lookup_node fs p with Some _ => true | None => false end.

(** [Path.is_dir()] *)
Definition path_is_dir (fs : FS) (p : PurePath) : bool :=
  match lookup_node fs p with Some Dir => true | _ => false end.

(** [Path.mkdir(parents=True, exist_ok=True)]: every missing ancestor and
    the path itself become directories; a component that is a file makes
    the call raise ([false]). *)
Fixpoint mkdir_go (fs : FS) (abs : bool) (above todo : list str)
  : FS * bool :=
  match todo with
  | [] => (fs, true)
  | d :: todo' =>
      let p := {| is_abs := abs; parts := above ++ [d] |} in
      match fs !! p with
      | None => mkdir_go (<[p := Dir]> fs) abs (above ++ [d]) todo'
      | Some Dir => mkdir_go fs abs (above ++ [d]) todo'
      | Some (File _) => (fs, false)
      end
  end.

Definition mkdir_parents (fs : FS) (p : PurePath) : FS * bool :=
  mkdir_go fs (is_abs p) [] (parts p).

(** How a call ends: it returns a value or raises. *)
Inductive outcome := Returned (b : bool) | Raised.

(** [open(output_path, 'wb')] followed by the writes: raises when the path
    is a directory or its parent is not one.  Paths are taken as they are
    written: the model stands for the operating system on paths whose
    components are names it accepts, without U+0000 and of at most 255
    bytes, and none of them [..] ([single_component] and
    [artwork_names_ok] below). *)
Definition write_file (fs : FS) (p : PurePath) (data : list N)
  : FS * outcome :=
  if path_is_dir fs p || negb (path_is_dir fs (parent p)) then (fs, Raised)
  else (<[p := File data]> fs, Returned true).

Definition GAMESDB_CDN : str := lit "https://cdn.thegamesdb.net/".

(** [Path("ROMs") / system_name] *)
Definition base_path_of (system_name : str) : PurePath :=
  joinpath (parse_path (lit "ROMs")) system_name.

(** The output path chosen for one artwork row. *)
Definition output_path_of (base_path : PurePath) (safe_title : str)
    (url_data : UrlRow) : PurePath :=
  if str_eqb (url_type url_data) (lit "boxart")
  then joinpath base_path (safe_title ++ lit "-cover.jpg")
  else joinpath base_path (safe_title ++ lit "-screenshot.jpg").

(** The loop that prepares [download_tasks]. *)
Definition prepare_tasks (fs : FS) (base_path : PurePath) (safe_title : str)
    (artwork_urls : list UrlRow) : list (str * PurePath) :=
  flat_map
    (fun url_data =>
       let cdn_url :=
         GAMESDB_CDN ++ lit "images/original/" ++ url_filename url_data in
       let output_path := output_path_of base_path safe_title url_data in
       if negb (path_exists fs output_path) then [(cdn_url, output_path)]
       else [])
    artwork_urls.

Section Download.

(** [requests.get(url)] and the body read from it, for the [k]-th request
    of a call: [None] when the request raises a [RequestException] before
    anything is written. *)
Variable http_get : nat -> str -> option (list N).

(** The order in which the worker threads of the pool perform the
    submitted tasks. *)
Variable schedule : list (str * PurePath) -> list (str * PurePath).

(** [ROMDownloader.download_file], as the [k]-th request. *)
Definition download_file (k : nat) (fs : FS) (url : str)
    (output_path : PurePath) : FS * outcome :=
  match http_get k url with
  | None => (fs, Returned false)
  | Some data => write_file fs output_path data
  end.

(** The pool: every submitted task is run; what a task returns or raises
    stays in its future and is not looked at. *)
Fixpoint run_tasks_from (k : nat) (fs : FS) (tasks : list (str * PurePath))
  : FS :=
  match tasks with
  | [] => fs
  | t :: rest =>
      run_tasks_from (S k) (fst (download_file k fs (fst t) (snd t))) rest
  end.

Definition run_tasks (fs : FS) (tasks : list (str * PurePath)) : FS :=
  run_tasks_from 0 fs tasks.

(** [ROMDownloader.download_artwork_parallel]: the file system it
    leaves, and whether it returned ([false]: [mkdir] raised). *)
Definition download_artwork_parallel (fs : FS)
    (system_name original_filename game_title : str)
    (artwork_urls : list UrlRow) (max_workers : nat) : FS * bool :=
  let base_path := base_path_of system_name in
  match mkdir_parents fs base_path with
  | (fs1, false) => (fs1, false)
  | (fs1, true) =>
      let safe_title := fst (splitext original_filename) in
      let download_tasks :=
        prepare_tasks fs1 base_path safe_title artwork_urls in
      match download_tasks with
      | [] => (fs1, true)
      | _ :: _ => (run_tasks fs1 (schedule download_tasks), true)
      end
  end.

End Download.

(** ** The main loop: [ROMDownloader.run] *)

Section Run.

(** The answer to the [k]-th request of the [n]-th call of
    [download_artwork_parallel], and the order in which the pool of that
    call performs its tasks. *)
Variable http_get : nat -> nat -> str -> option (list N).
Variable schedule : nat -> list (str * PurePath) -> list (str * PurePath).

(** The body of the loop over [system['children']], for the [n]-th child
    the run looks at: the file system it leaves and whether it went
    through ([false]: an exception left the loop).  Progress messages and
    the pauses between games are left out. *)
Definition run_child (self : ROMDownloader) (system_name : str)
    (system_id : Z) (n : nat) (fs : FS) (child : Child) : FS * bool :=
  if negb (str_eqb (child_type child) (lit "file")) then (fs, true)
  else
    match find_game_in_db self (child_name child) system_id with
    | Some game =>
        match get_artwork_urls self (fst game) with
        | [] => (fs, true)
        | (_ :: _) as artwork_urls =>
            download_artwork_parallel (http_get n) (schedule n) fs
              system_name (child_name child) (snd game) artwork_urls 4
        end
    | None => (fs, true)
    end.

Fixpoint run_children (self : ROMDownloader) (system_name : str)
    (system_id : Z) (n : nat) (fs : FS) (l : list Child) : FS * nat * bool :=
  match l with
  | [] => (fs, n, true)
  | child :: rest =>
      match run_child self system_name system_id n fs child with
      | (fs', true) => run_children self system_name system_id (S n) fs' rest
      | (fs', false) => (fs', n, false)
      end
  end.

(** [if not system_id]: the name is not in the mapping, or is mapped to
    0. *)
Definition usable_id (o : option Z) : option Z :=
  match o with
  | Some id => if (id =? 0)%Z then None else Some id
  | None => None
  end.

(** The body of the loop over [self.cores_data]. *)
Definition run_system (self : ROMDownloader) (n : nat) (fs : FS)
    (system : CoreSystem) : FS * nat * bool :=
  match usable_id (system_mapping self !! core_name system) with
  | None => (fs, n, true)
  | Some system_id =>
      match children system with
      | None => (fs, n, true)
      | Some l => run_children self (core_name system) system_id n fs l
      end
  end.

Fixpoint run_systems (self : ROMDownloader) (n : nat) (fs : FS)
    (l : list CoreSystem) : FS * bool :=
  match l with
  | [] => (fs, true)
  | system :: rest =>
      match run_system self n fs system with
      | (fs', n', true) => run_systems self n' fs' rest
      | (fs', _, false) => (fs', false)
      end
  end.

(** [ROMDownloader.run] *)
Definition run (self : ROMDownloader) (fs : FS) : FS * bool :=
  run_systems self 0 fs (cores_data self).

End Run.

(** ** Import: [convert_to_sqlite.py] *)

(** The parts of the JSON dump the import reads.  A key that may be absent
    or [null] is an [option]; the keys the script indexes directly are
    present.  The keys of the [boxart] dictionary are the integers their
    strings denote. *)
Record PlatformJ := {
  pj_id : Z;
  pj_name : str;
  pj_alias : option str }.

Record GameJ := {
  gj_id : Z;
  gj_game_title : str;
  gj_release_date : option str;
  gj_platform : option Z;
  gj_region_id : option Z;
  gj_country_id : option Z;
  gj_overview : option str;
  gj_youtube : option str;
  gj_players : option Z;
  gj_coop : option str;
  gj_rating : option str;
  gj_developers : option (list (option Z));
  gj_genres : option (list (option Z));
  gj_publishers : option (list (option Z));
  gj_alternates : option (list (option str)) }.

Record ArtJ := {
  aj_type : str;
  aj_side : option str;
  aj_filename : str;
  aj_resolution : option str }.

Record Dump := {
  include_platform : option (list (str * PlatformJ));
  data_games : list GameJ;
  include_boxart : option (list (Z * list ArtJ)) }.

(** [INSERT OR REPLACE] into a table whose [INTEGER PRIMARY KEY] is given:
    the row with that key, if any, gives way to the new one; rows stay in
    key order. *)
Fixpoint put_row {R : Type} (key : R -> Z) (r : R) (t : list R) : list R :=
  match t with
  | [] => [r]
  | x :: t' =>
      if (key x <? key r)%Z then x :: put_row key r t'
      else if (key x =? key r)%Z then r :: t'
      else r :: t
  end.

(** Two rows of a join table collide on the composite primary key when
    both columns are equal and not [NULL]. *)
Definition key_conflict {A B : Type} `{EqDecision A} `{EqDecision B}
    (r x : option A * option B) : bool :=
  match r, x with
  | (Some a, Some b), (Some a', Some b') => bool_decide (a = a' /\ b = b')
  | _, _ => false
  end.

(** [INSERT OR IGNORE] into a join table. *)
Definition insert_or_ignore {A B : Type} `{EqDecision A} `{EqDecision B}
    (r : option A * option B) (t : list (option A * option B))
  : list (option A * option B) :=
  if existsb (key_conflict r) t then t else t ++ [r].

(** [safe_insert_many]: with [OR IGNORE] no statement raises. *)
Definition safe_insert_many {A B : Type} `{EqDecision A} `{EqDecision B}
    (t : list (option A * option B)) (data : list (option A * option B))
  : list (option A * option B) :=
  fold_left (fun t item => insert_or_ignore item t) data t.

(** The row id SQLite gives a row inserted without one: one more than the
    largest in the table, as long as that is below [2^63 - 1]. *)
Definition next_rowid (t : list ArtworkRow) : Z :=
  match List.map art_id t with
  | [] => 1%Z
  | i :: r => (fold_left Z.max r i + 1)%Z
  end.

(** [INSERT OR REPLACE INTO game_artwork (game_id, type, side, filename,
    resolution)]: no key is given, so a new row is added.  The statement
    is taken to succeed, as it does for values SQLite can hold
    ([artwork_storable] below); one that raises is skipped by the script. *)
Definition insert_artwork (game : Z) (art : ArtJ) (t : list ArtworkRow)
  : list ArtworkRow :=
  t ++ [ {| art_id := next_rowid t; art_game_id := game;
            art_type := aj_type art; art_side := aj_side art;
            art_filename := aj_filename art;
            art_resolution := aj_resolution art |} ].

(** [list(set(alt for alt in alternates if alt))]: the values that are
    neither [null] nor empty, each once.  (A Python set has no fixed
    order; the order of first occurrence is taken.) *)
Fixpoint truthy_alternates (seen : list str) (l : list (option str))
  : list str :=
  match l with
  | [] => []
  | None :: l' => truthy_alternates seen l'
  | Some a :: l' =>
      if str_eqb a [] || str_in a seen then truthy_alternates seen l'
      else a :: truthy_alternates (a :: seen) l'
  end.

Definition system_row (p : PlatformJ) : SystemRow :=
  {| sys_id := pj_id p; sys_name := pj_name p; sys_alias := pj_alias p |}.

Definition game_row (g : GameJ) : GameRow :=
  {| game_id := gj_id g; game_title := gj_game_title g;
     release_date := gj_release_date g; platform := gj_platform g;
     region_id := gj_region_id g; country_id := gj_country_id g;
     overview := gj_overview g; youtube := gj_youtube g;
     players := gj_players g; coop := gj_coop g; rating := gj_rating g |}.

(** The rows [[(game['id'], x) for x in ids]], or none when the key is
    absent, [null] or an empty list. *)
Definition id_pairs {B : Type} (g : Z) (ids : option (list (option B)))
  : list (option Z * option B) :=
  match ids with
  | Some l => List.map (fun x => (Some g, x)) l
  | None => []
  end.

Definition alternate_pairs (g : Z) (alts : option (list (option str)))
  : list (option Z * option str) :=
  match alts with
  | Some l => List.map (fun a => (Some g, Some a)) (truthy_alternates [] l)
  | None => []
  end.

(** The body of the loop over [data['data']['games']], for a game whose
    statements all succeed, as they do for values SQLite can hold
    ([game_storable] below); when one raises, the script leaves the rest
    of the game out. *)
Definition import_game (db : Database) (g : GameJ) : Database :=
  {| systems := systems db;
     games := put_row game_id (game_row g) (games db);
     game_developers :=
       safe_insert_many (game_developers db)
         (id_pairs (gj_id g) (gj_developers g));
     game_genres :=
       safe_insert_many (game_genres db) (id_pairs (gj_id g) (gj_genres g));
     game_publishers :=
       safe_insert_many (game_publishers db)
         (id_pairs (gj_id g) (gj_publishers g));
     game_alternates :=
       safe_insert_many (game_alternates db)
         (alternate_pairs (gj_id g) (gj_alternates g));
     game_artwork := game_artwork db |}.

Definition import_platforms (db : Database)
    (platforms : list (str * PlatformJ)) : Database :=
  {| systems :=
       fold_left (fun t p => put_row sys_id (system_row (snd p)) t)
         platforms (systems db);
     games := games db;
     game_developers := game_developers db;
     game_genres := game_genres db;
     game_publishers := game_publishers db;
     game_alternates := game_alternates db;
     game_artwork := game_artwork db |}.

Definition import_artwork (db : Database) (boxart : list (Z * list ArtJ))
  : Database :=
  {| systems := systems db;
     games := games db;
     game_developers := game_developers db;
     game_genres := game_genres db;
     game_publishers := game_publishers db;
     game_alternates := game_alternates db;
     game_artwork :=
       fold_left
         (fun t entry =>
            fold_left (fun t art => insert_artwork (fst entry) art t)
              (snd entry) t)
         boxart (game_artwork db) |}.

(** [import_data(conn, json_path)], on the parsed dump. *)
Definition import_data (db : Database) (data : Dump) : Database :=
  let db :=
    match include_platform data with
    | Some platforms => import_platforms db platforms
    | None => db
    end in
  let db := fold_left import_game (data_games data) db in
  match include_boxart data with
  | Some boxart => import_artwork db boxart
  | None => db
  end.

(** The database [create_database] makes when there is none. *)
Definition empty_database : Database :=
  {| systems := []; games := []; game_developers := []; game_genres := [];
     game_publishers := []; game_alternates := []; game_artwork := [] |}.

(** ** The scan of the ROM folder: [scan_roms.py] *)

(** [PurePath.name]: the last component. *)
Definition path_name (p : PurePath) : str := List.last (parts p) [].

(** [PurePath.suffix] and [PurePath.stem], on the name (pathlib before
    Python 3.14): the name is cut at its last dot unless that dot is its
    first or its last character. *)
Definition name_suffix (name : str) : str :=
  let i := rfind 46 name in
  if (0 <? i)%Z && (i <? Z.of_nat (length name) - 1)%Z
  then skipn (Z.to_nat i) name else [].

Definition name_stem (name : str) : str :=
  let i := rfind 46 name in
  if (0 <? i)%Z && (i <? Z.of_nat (length name) - 1)%Z
  then firstn (Z.to_nat i) name else name.

(** [PurePath.with_name(name)], for a path that has a name and a new name
    that is a valid one (the only use the scan makes of it). *)
Definition with_name (p : PurePath) (name : str) : PurePath :=
  {| is_abs := is_abs p; parts := removelast (parts p) ++ [name] |}.

(** The values of [mapping]: [rom_artwork] is the key ['artwork'], present
    only when a cover or a screenshot was found. *)
Record Artwork := { cover : option str; screenshot : option str }.

Record RomInfo := {
  rom_file : str;
  rom_size : N;
  rom_artwork : option Artwork }.

Record SystemEntry := { count : nat; roms : list RomInfo }.

Section Scan.

(** [Path.iterdir()]: the entries of a directory in the order the
    operating system lists them; and the size [stat] reports for a
    directory. *)
Variable listdir : FS -> PurePath -> list PurePath.
Variable dir_size : PurePath -> N.

(** [Path.stat().st_size] *)
Definition st_size (fs : FS) (p : PurePath) : N :=
  match lookup_node fs p with
  | Some (File content) => N.of_nat (length content)
  | _ => dir_size p
  end.

(** The dictionary [rom_info] made for one ROM file, with the artwork
    found beside it. *)
Definition rom_info (fs : FS) (file_path : PurePath) : RomInfo :=
  let rom_base := name_stem (path_name file_path) in
  let cover_path := with_name file_path (rom_base ++ lit "-cover.jpg") in
  let screenshot_path :=
    with_name file_path (rom_base ++ lit "-screenshot.jpg") in
  let cover_found :=
    if path_exists fs cover_path then Some (path_name cover_path)
    else None in
  let screenshot_found :=
    if path_exists fs screenshot_path then Some (path_name screenshot_path)
    else None in
  let artwork :=
    match cover_found, screenshot_found with
    | None, None => None
    | _, _ => Some {| cover := cover_found; screenshot := screenshot_found |}
    end in
  {| rom_file := path_name file_path;
     rom_size := st_size fs file_path;
     rom_artwork := artwork |}.

(** The body of the loop over [system_dir.iterdir()], on the pair of
    [rom_count] and [roms_list]. *)
Definition scan_entry (fs : FS) (st : nat * list RomInfo)
    (file_path : PurePath) : nat * list RomInfo :=
  let (rom_count, roms_list) := st in
  if negb (str_in (lower (name_suffix (path_name file_path)))
             [lit ".zip"; lit ".dosz"])
  then (rom_count, roms_list)
  else (S rom_count, roms_list ++ [rom_info fs file_path]).

(** The body of the loop over [base.iterdir()]. *)
Definition scan_system (fs : FS) (mapping : gmap str SystemEntry)
    (system_dir : PurePath) : gmap str SystemEntry :=
  if negb (path_is_dir fs system_dir) then mapping
  else
    let system_name := path_name system_dir in
    let (rom_count, roms_list) :=
      fold_left (scan_entry fs) (listdir fs system_dir) (0%nat, []) in
    if (0 <? rom_count)%nat
    then <[system_name := {| count := rom_count; roms := roms_list |}]> mapping
    else mapping.

(** [scan_roms_folder(base_path)]; [None] when [base.iterdir()] raises
    because the base is not a directory. *)
Definition scan_roms_folder (fs : FS) (base_path : str)
  : option (gmap str SystemEntry) :=
  let base := parse_path base_path in
  if path_is_dir fs base
  then Some (fold_left (scan_system fs) (listdir fs base) ∅)
  else None.

End Scan.

(** ** The names of the core games: [ROMDownloader.get_core_games] *)

(** [re.sub(r'\([^)]*\)', '', name)]: every [(] that has a [)] after it
    is removed with everything up to the first such [)]. *)
Fixpoint remove_groups_go (inside : bool) (s : str) : str :=
  match s with
  | [] => []
  | c :: t =>
      if inside then
        if c =? 41 then remove_groups_go false t else remove_groups_go true t
      else if (c =? 40) && existsb (N.eqb 41) t then remove_groups_go true t
      else c :: remove_groups_go false t
  end.

Definition remove_groups (s : str) : str := remove_groups_go false s.

(** What is added to [games_set] for a child named [name]. *)
Definition core_game_name (name : str) : str :=
  let game_name := fst (splitext name) in
  let game_name := replace (lit "_") (lit " ") game_name in
  let game_name := remove_groups game_name in
  let game_name := strip game_name in
  lower game_name.

(** The names of the children of type ['file'] of a system. *)
Definition system_game_names (system : CoreSystem) : list str :=
  match children system with
  | Some l =>
      List.map (fun child => core_game_name (child_name child))
        (List.filter (fun child => str_eqb (child_type child) (lit "file")) l)
  | None => []
  end.

Definition get_core_games (self : ROMDownloader) : gset str :=
  list_to_set (flat_map system_game_names (cores_data self)).

(** ** The schema analyser: [analyze_json.py] *)

(** A value as [json.load] returns it.  A [float] carries the literal it
    was read from; a [dict] is the list of its members in insertion
    order, with distinct keys. *)
#[local] Unset Elimination Schemes.
Inductive json :=
| JNull
| JBool (b : bool)
| JInt (n : Z)
| JFloat (literal : str)
| JStr (s : str)
| JList (items : list json)
| JDict (members : list (str * json)).
#[local] Set Elimination Schemes.

(** [seen_types].  The source keeps the strings
    [f"dict{tuple(sorted(value.keys()))}"]; the [repr] of a tuple of
    strings determines the tuple, so the set of the sorted key lists
    themselves has the same members. *)
Abbreviation seen_set := (gset (list str)).

(** ["  " * depth] *)
Fixpoint indent_of (depth : nat) : str :=
  match depth with
  | O => []
  | S d => lit "  " ++ indent_of d
  end.

(** [sorted], on the members of a dictionary by key. *)
Fixpoint insert_member {V : Type} (kv : str * V) (l : list (str * V))
  : list (str * V) :=
  match l with
  | [] => [kv]
  | x :: l' =>
      match str_compare (fst kv) (fst x) with
      | Gt => x :: insert_member kv l'
      | _ => kv :: l
      end
  end.

Definition sort_members {V : Type} (l : list (str * V)) : list (str * V) :=
  fold_right insert_member [] l.

(** [str(n)] for a natural number. *)
Definition decimal (n : nat) : str :=
  lit (DecimalString.NilZero.string_of_uint (Nat.to_uint n)).

(** The analysis of a value, waiting for the set of the types seen so far
    and the depth: it returns the schema and the set as the call leaves
    it. *)
Abbreviation analysis := (seen_set -> nat -> str * seen_set).

(** The loop over [sample_keys]: each value is analysed with the set the
    previous one left. *)
Fixpoint schema_parts (indent : str) (depth : nat)
    (sample : list (str * analysis)) (seen : seen_set)
  : list str * seen_set :=
  match sample with
  | [] => ([], seen)
  | (key, f) :: rest =>
      let (val_schema, seen1) := f seen (S depth) in
      let (parts, seen2) := schema_parts indent depth rest seen1 in
      ((indent ++ lit "  " ++ key ++ lit ": " ++ val_schema) :: parts, seen2)
  end.

(** The [dict] branch, given the analysis of every member. *)
Definition dict_schema (members : list (str * analysis)) (seen : seen_set)
    (depth : nat) : str * seen_set :=
  let indent := indent_of depth in
  let type_key := List.map fst (sort_members members) in
  if bool_decide (type_key ∈ seen) then (lit "{...}", seen)
  else
    let seen := {[type_key]} ∪ seen in
    let sample_keys := firstn 20 (sort_members members) in
    let (parts, seen) := schema_parts indent depth sample_keys seen in
    let parts :=
      if (20 <? length members)%nat
      then parts ++ [indent ++ lit "  ... ("
                       ++ decimal (length members - 20)
                       ++ lit " more fields)"]
      else parts in
    (lit "{" ++ [10] ++ join [10] parts ++ [10] ++ indent ++ lit "}", seen).

(** [analyze_schema(value, seen_types, depth)] *)
Fixpoint analyze_schema (value : json) : analysis :=
  match value with
  | JNull => fun seen depth => (lit "null", seen)
  | JBool _ => fun seen depth => (lit "bool", seen)
  | JInt _ => fun seen depth => (lit "int", seen)
  | JFloat _ => fun seen depth => (lit "float", seen)
  | JStr _ => fun seen depth => (lit "str", seen)
  | JList items =>
      match items with
      | [] => fun seen depth => (lit "[]", seen)
      | first :: _ =>
          fun seen depth =>
            let (type_str, seen') := analyze_schema first seen (S depth) in
            (lit "Array<" ++ type_str ++ lit ">", seen')
      end
  | JDict members =>
      dict_schema
        ((fix each (l : list (str * json)) : list (str * analysis) :=
            match l with
            | [] => []
            | kv :: l' => (fst kv, analyze_schema (snd kv)) :: each l'
            end) members)
  end.

(** The call [analyze_schema(data)] of [print_schema]: a fresh set, depth
    0. *)
Definition schema_of (data : json) : str :=
  fst (analyze_schema data ∅ 0%nat).

(** [sorted(value.keys())] *)
Definition sorted_keys (members : list (str * json)) : list str :=
  List.map fst (sort_members members).

(** [s] has a parenthesised group: a [(] with a [)] somewhere after
    it. *)
Fixpoint has_group (s : str) : bool :=
  match s with
  | [] => false
  | c :: t => ((c =? 40) && existsb (N.eqb 41) t) || has_group t
  end.

(** ** Notions used in the statements, and the readings of the
       specification that are compared with the code *)

(** Removal of the first occurrence only ([name.replace(suffix, '', 1)]):
    what "at most one occurrence of each denylist string is removed" would
    be. *)
Fixpoint remove_first (old s : str) : str :=
  match s with
  | [] => []
  | c :: t =>
      if prefixb old s then skipn (length old) s else c :: remove_first old t
  end.

Definition remove_suffixes_once (l : list str) (name : str) : str :=
  fold_left (fun n suffix => remove_first suffix n) l name.

(** [old] occurs in [s] at one of the positions before [n]. *)
Definition occurs_before (old : str) (n : nat) (s : str) : bool :=
  existsb (fun i => prefixb old (skipn i s)) (seq 0 n).

(** The string that reaches the suffix-removal loop of [clean_game_name]. *)
Definition before_suffix_removal (name : str) : str :=
  camel_split
    (replace (lit "_") (lit " ") (strip_paren (fst (splitext name)))).

(** The suffix list with the entry ['_Win64'] removed. *)
Definition suffixes_without_win64 : list str :=
  List.filter (fun s => negb (str_eqb s (lit "_Win64"))) suffixes.

(** [clean_game_name] with that entry removed from its list. *)
Definition clean_game_name_without_win64 (self : ROMDownloader) (name : str)
  : str :=
  clean_game_name_with suffixes_without_win64 name.

(** [s] has an opening parenthesis with no closing one after it. *)
Fixpoint unclosed (s : str) : bool :=
  match s with
  | [] => false
  | c :: t => ((c =? 40) && negb (existsb (N.eqb 41) t)) || unclosed t
  end.

(** [s] ends with a white-space character. *)
Definition ends_with_space (s : str) : bool :=
  match rev s with
  | [] => false
  | c :: _ => is_space c
  end.

(** A character that stands for itself in a [LIKE] pattern. *)
Definition plain (c : N) : Prop := c <> 37 /\ c <> 95.

(** A stored system passes the test of the first loop: its name equals one
    of the variations up to case, or its alias is one of the variations as
    written. *)
Definition variation_matches (variations : list str) (d : SystemRow) : Prop :=
  In (lower (sys_name d)) (List.map lower variations)
  \/ exists a, sys_alias d = Some a /\ In a variations.

(** The test the specification describes: name or alias equals one of the
    variations up to case. *)
Definition variation_matches_nocase (variations : list str) (d : SystemRow)
  : Prop :=
  In (lower (sys_name d)) (List.map lower variations)
  \/ exists a, sys_alias d = Some a
                /\ In (lower a) (List.map lower variations).

(** *** The range in which the models of the libraries stand for them *)

(** Every code point of the name is at most U+00FF: there [lower] is
    [str.lower]. *)
Definition latin1 (s : str) : Prop := forallb (fun c => c <=? 255) s = true.

(** A UTF-16 surrogate. *)
Definition is_surrogate (c : N) : bool := (55296 <=? c) && (c <=? 57343).

(** A Unicode scalar value other than U+0000. *)
Definition text_char (c : N) : bool :=
  negb (c =? 0) && (c <=? 1114111) && negb (is_surrogate c).

Definition text_ok (s : str) : bool := forallb text_char s.

(** Text that [sqlite3] can bind and that SQLite reads to its end: no lone
    surrogate and no U+0000. *)
Definition sql_text (s : str) : Prop := text_ok s = true.

(** The number of bytes of the UTF-8 encoding. *)
Definition utf8_len (s : str) : N :=
  fold_right
    (fun c n =>
       (if c <? 128 then 1 else if c <? 2048 then 2
        else if c <? 65536 then 3 else 4) + n)
    0 s.

(** The pattern [f"%{clean_name}%"] is within
    [SQLITE_MAX_LIKE_PATTERN_LENGTH], 50000 bytes. *)
Definition like_pattern_fits (clean_name : str) : Prop :=
  (utf8_len (37 :: clean_name ++ [37]) <=? 50000) = true.




(** An integer SQLite can hold: 64 bits, signed. *)
Definition int64 (z : Z) : bool :=
  (-9223372036854775808 <=? z)%Z && (z <=? 9223372036854775807)%Z.

Definition opt_ok {A : Type} (f : A -> bool) (o : option A) : bool :=
  match o with
  | Some a => f a
  | None => true
  end.

(** The values of the [games] row of a game can be bound to the insert. *)
Definition game_storable (g : GameJ) : bool :=
  int64 (gj_id g) && text_ok (gj_game_title g)
  && opt_ok text_ok (gj_release_date g) && opt_ok int64 (gj_platform g)
  && opt_ok int64 (gj_region_id g) && opt_ok int64 (gj_country_id g)
  && opt_ok text_ok (gj_overview g) && opt_ok text_ok (gj_youtube g)
  && opt_ok int64 (gj_players g) && opt_ok text_ok (gj_coop g)
  && opt_ok text_ok (gj_rating g).

(** The values of an artwork entry can be bound to the insert. *)
Definition artwork_storable (game : Z) (art : ArtJ) : bool :=
  int64 game && text_ok (aj_type art) && opt_ok text_ok (aj_side art)
  && text_ok (aj_filename art) && opt_ok text_ok (aj_resolution art).

(** Every artwork entry of the dump can be stored, and the row ids that
    the import hands out stay below [2^63]. *)
Definition artwork_fits (db : Database) (data : Dump) : Prop :=
  match include_boxart data with
  | Some boxart =>
      forallb (fun entry => forallb (artwork_storable (fst entry)) (snd entry))
        boxart = true
      /\ (next_rowid (game_artwork db)
          + Z.of_nat (length (flat_map snd boxart))
          <= 9223372036854775808)%Z
  | None => True
  end.

(** ** Sample data *)

(** A downloader on an empty database. *)
Definition fresh_downloader : ROMDownloader :=
  {| artwork_only := false; db_conn := empty_database; cores_data := [];
     system_mapping := ∅ |}.

(** A downloader whose database holds the given games. *)
Definition downloader_with_games (rows : list GameRow) : ROMDownloader :=
  {| artwork_only := false;
     db_conn :=
       {| systems := []; games := rows; game_developers := [];
          game_genres := []; game_publishers := []; game_alternates := [];
          game_artwork := [] |};
     cores_data := [];
     system_mapping := ∅ |}.

(** A downloader whose database holds the given artwork rows. *)
Definition downloader_with_artwork (rows : list ArtworkRow) : ROMDownloader :=
  {| artwork_only := false;
     db_conn :=
       {| systems := []; games := []; game_developers := [];
          game_genres := []; game_publishers := []; game_alternates := [];
          game_artwork := rows |};
     cores_data := [];
     system_mapping := ∅ |}.

(** The system name of the NES in [assets.cores.json] and its entry in
    the variations. *)
Definition nes_name : str := lit "Nintendo - Nintendo Entertainment System".

Definition nes_core : CoreSystem :=
  {| core_name := nes_name; children := None |}.

Definition nes_variations : list str :=
  [lit "Nintendo Entertainment System (NES)"; lit "nes"].

(** A stored system whose alias is the NES alias in capitals. *)
Definition famicom_system : SystemRow :=
  {| sys_id := 7; sys_name := lit "Famicom"; sys_alias := Some (lit "NES") |}.

Definition atari_system : SystemRow :=
  {| sys_id := 3; sys_name := lit "Atari 2600";
     sys_alias := Some (lit "atari-2600") |}.

Definition nes_system : SystemRow :=
  {| sys_id := 7; sys_name := lit "Nintendo Entertainment System (NES)";
     sys_alias := Some (lit "nes") |}.

(** A similarity search that finds nothing; [difflib] finds nothing for
    the NES name among the names ["famicom"] (seven characters against
    forty: a ratio of at most 14/47). *)
Definition no_close_matches (word : str) (possibilities : list str)
  : list str := [].

(** Artwork rows of game 5: one of type ['cover'], one of type
    ['boxart']. *)
Definition cover_row : ArtworkRow :=
  {| art_id := 1; art_game_id := 5; art_type := lit "cover";
     art_side := None; art_filename := lit "cover/5-1.jpg";
     art_resolution := None |}.

Definition boxart_row : ArtworkRow :=
  {| art_id := 2; art_game_id := 5; art_type := lit "boxart";
     art_side := Some (lit "front"); art_filename := lit "boxart/front/5-1.jpg";
     art_resolution := None |}.

(** A server that answers every request with the same three bytes, and a
    pool that runs the tasks in the order they were submitted. *)
Definition sample_http (k : nat) (url : str) : option (list N) :=
  Some [255; 216; 255].

Definition in_order (tasks : list (str * PurePath)) : list (str * PurePath) :=
  tasks.

Definition mario_file : str := lit "Super_Mario_Bros_(USA).zip".

(** A file system in which the cover of that game is already there. *)
Definition mario_cover_path : PurePath :=
  {| is_abs := false;
     parts := [lit "ROMs"; lit "NES"; lit "Super_Mario_Bros_(USA)-cover.jpg"] |}.

Definition fs_with_cover : FS :=
  <[ mario_cover_path := File [1; 2; 3] ]>
    (<[ {| is_abs := false; parts := [lit "ROMs"; lit "NES"] |} := Dir ]>
       (<[ {| is_abs := false; parts := [lit "ROMs"] |} := Dir ]> ∅)).


(** A dump with one game, one developer and one piece of box art. *)
Definition sample_game : GameJ :=
  {| gj_id := 1; gj_game_title := lit "Super Mario Bros";
     gj_release_date := None; gj_platform := Some 7%Z; gj_region_id := None;
     gj_country_id := None; gj_overview := None; gj_youtube := None;
     gj_players := None; gj_coop := None; gj_rating := None;
     gj_developers := Some [Some 10%Z]; gj_genres := None;
     gj_publishers := None; gj_alternates := None |}.

Definition sample_art : ArtJ :=
  {| aj_type := lit "boxart"; aj_side := Some (lit "front");
     aj_filename := lit "boxart/front/1-1.jpg"; aj_resolution := None |}.

Definition sample_dump : Dump :=
  {| include_platform := None; data_games := [sample_game];
     include_boxart := Some [(1%Z, [sample_art])] |}.




(** A stored system passes the test of the second loop: its name equals
    the system name up to case, or its alias is the lower-cased system
    name. *)
Definition direct_matches (system_name : str) (d : SystemRow) : Prop :=
  lower system_name = lower (sys_name d)
  \/ sys_alias d = Some (lower system_name).

(** [ORDER BY type, id], as a relation. *)
Definition art_le (a b : ArtworkRow) : Prop := art_leb a b = true.

(** A system of [assets.cores.json] whose name has no entry in the
    variations. *)
Definition atari_core : CoreSystem :=
  {| core_name := lit "atari 2600"; children := None |}.

(** A file system in which [ROMs] is a file. *)
Definition fs_roms_is_file : FS :=
  <[ {| is_abs := false; parts := [lit "ROMs"] |} := File [0] ]> ∅.

(** A system the loop of [run] passes over: its name is not in the mapping
    or is mapped to 0, or it has no children, or none of them is a file. *)
Definition passed_over (self : ROMDownloader) (system : CoreSystem) : Prop :=
  system_mapping self !! core_name system = None
  \/ system_mapping self !! core_name system = Some 0%Z
  \/ children system = None
  \/ exists l, children system = Some l
       /\ forall child, In child l -> child_type child <> lit "file".

(** A downloader whose only system is mapped to id 0. *)
Definition downloader_id_zero : ROMDownloader :=
  {| artwork_only := false;
     db_conn :=
       {| systems := []; games := [mk_game 1 (lit "Zork") 0];
          game_developers := []; game_genres := []; game_publishers := [];
          game_alternates := [];
          game_artwork :=
            [ {| art_id := 1; art_game_id := 1; art_type := lit "boxart";
                 art_side := None; art_filename := lit "boxart/1.jpg";
                 art_resolution := None |} ] |};
     cores_data :=
       [ {| core_name := lit "DOS";
            children := Some [ {| child_type := lit "file";
                                  child_name := lit "Zork.zip" |} ] |} ];
     system_mapping := <[ lit "DOS" := 0%Z ]> ∅ |}.

(** The same downloader with the system mapped to id 3. *)
Definition downloader_id_three : ROMDownloader :=
  {| artwork_only := false;
     db_conn :=
       {| systems := []; games := [mk_game 1 (lit "Zork") 3];
          game_developers := []; game_genres := []; game_publishers := [];
          game_alternates := [];
          game_artwork :=
            [ {| art_id := 1; art_game_id := 1; art_type := lit "boxart";
                 art_side := None; art_filename := lit "boxart/1.jpg";
                 art_resolution := None |} ] |};
     cores_data :=
       [ {| core_name := lit "DOS";
            children := Some [ {| child_type := lit "file";
                                  child_name := lit "Zork.zip" |} ] |} ];
     system_mapping := <[ lit "DOS" := 3%Z ]> ∅ |}.

Definition sample_http2 (n k : nat) (url : str) : option (list N) :=
  Some [255; 216; 255].

Definition in_order2 (n : nat) (tasks : list (str * PurePath))
  : list (str * PurePath) := tasks.


(** No two rows of a join table collide on the composite primary key. *)
Fixpoint distinct_keys {A B : Type} `{EqDecision A} `{EqDecision B}
    (t : list (option A * option B)) : Prop :=
  match t with
  | [] => True
  | r :: t' => existsb (key_conflict r) t' = false /\ distinct_keys t'
  end.

(** The rows one game of the dump contributes to each join table. *)
Definition developer_rows (g : GameJ) : list (option Z * option Z) :=
  id_pairs (gj_id g) (gj_developers g).

Definition genre_rows (g : GameJ) : list (option Z * option Z) :=
  id_pairs (gj_id g) (gj_genres g).

Definition publisher_rows (g : GameJ) : list (option Z * option Z) :=
  id_pairs (gj_id g) (gj_publishers g).

Definition alternate_rows (g : GameJ) : list (option Z * option str) :=
  alternate_pairs (gj_id g) (gj_alternates g).

(** What an artwork row holds besides its row id. *)
Definition art_payload (a : ArtworkRow)
  : Z * str * option str * str * option str :=
  (art_game_id a, art_type a, art_side a, art_filename a, art_resolution a).

(** The artwork entries of a dump, in the order the import visits them. *)
Definition dump_artwork (data : Dump)
  : list (Z * str * option str * str * option str) :=
  match include_boxart data with
  | Some boxart =>
      flat_map
        (fun entry =>
           List.map
             (fun art => (fst entry, aj_type art, aj_side art,
                          aj_filename art, aj_resolution art))
             (snd entry))
        boxart
  | None => []
  end.

(** A table is in the order of its integer key, without repetition. *)
Fixpoint sorted_by {R : Type} (key : R -> Z) (t : list R) : Prop :=
  match t with
  | [] => True
  | x :: t' => (forall y, In y t' -> (key x < key y)%Z) /\ sorted_by key t'
  end.

(** The row of a table with a given key. *)
Definition row_with {R : Type} (key : R -> Z) (id : Z) (t : list R)
  : option R :=
  find (fun x => (key x =? id)%Z) t.

(** A downloader whose core data lists one file with two groups in its
    name. *)
Definition downloader_with_core_file : ROMDownloader :=
  {| artwork_only := false; db_conn := empty_database;
     cores_data :=
       [ {| core_name := lit "NES";
            children :=
              Some [ {| child_type := lit "file";
                        child_name := lit "Mega_Man_(USA)_(Rev 1).zip" |};
                     {| child_type := lit "directory";
                        child_name := lit "saves" |} ] |} ];
     system_mapping := ∅ |}.

(** The test of the scan on a file name: its suffix, in lower case, is
    [.zip] or [.dosz]. *)
Definition has_rom_suffix (name : str) : bool :=
  str_in (lower (name_suffix name)) [lit ".zip"; lit ".dosz"].

(** One way a directory may be listed: the paths of the file system that
    lie directly in it, in the order of the map; and a size for
    directories. *)
Definition listdir_of (fs : FS) (d : PurePath) : list PurePath :=
  List.filter (fun p => bool_decide (parts p <> [] /\ parent p = d))
    (List.map fst (map_to_list fs)).

Definition dir_size_4096 (p : PurePath) : N := 4096.


Definition mario_rom_path : PurePath :=
  {| is_abs := false; parts := [lit "ROMs"; lit "NES"; mario_file] |}.

(** A ROM folder with one game and its cover. *)
Definition fs_with_rom : FS :=
  <[ mario_rom_path := File [80; 75; 3; 4] ]> fs_with_cover.


Definition mario_scanned : SystemEntry :=
  {| count := 1;
     roms := [ {| rom_file := mario_file; rom_size := 4;
                  rom_artwork :=
                    Some {| cover :=
                              Some (lit "Super_Mario_Bros_(USA)-cover.jpg");
                            screenshot := None |} |} ] |}.

(** * Properties *)

(** ** Characters and prefixes *)

Lemma str_eqb_eq (a b : str) : str_eqb a b = true <-> a = b.
Proof. unfold str_eqb. apply bool_decide_eq_true. Qed.

Lemma str_eqb_neq (a b : str) : str_eqb a b = false <-> a <> b.
Proof. unfold str_eqb. apply bool_decide_eq_false. Qed.

Lemma str_in_In (x : str) (l : list str) : str_in x l = true <-> In x l.
Proof.
  unfold str_in. rewrite existsb_exists. split.
  - intros (y & Hy & E). apply str_eqb_eq in E. now subst.
  - intros H. exists x. split; [assumption | now apply str_eqb_eq].
Qed.

Lemma existsb_eqb_In (c : N) (s : str) :
  existsb (N.eqb c) s = false -> ~ In c s.
Proof.
  intros H Hin. assert (E : existsb (N.eqb c) s = true).
  { apply existsb_exists. exists c. split; [exact Hin | apply N.eqb_refl]. }
  congruence.
Qed.

Lemma prefixb_app (p r : str) : prefixb p (p ++ r) = true.
Proof.
  induction p as [|a p IH]; simpl; [reflexivity|].
  now rewrite N.eqb_refl, IH.
Qed.

Lemma prefixb_true (p s : str) :
  prefixb p s = true -> exists r, s = p ++ r.
Proof.
  revert s. induction p as [|a p IH]; intros s H.
  - now exists s.
  - destruct s as [|b s]; simpl in H; [discriminate|].
    apply andb_true_iff in H as [E H]. apply N.eqb_eq in E. subst b.
    destruct (IH _ H) as [r ->]. now exists r.
Qed.

Lemma prefixb_In (p s : str) (c : N) :
  prefixb p s = true -> In c p -> In c s.
Proof.
  intros H Hc. destruct (prefixb_true _ _ H) as [r ->].
  apply in_or_app. now left.
Qed.

(** ** [str.replace] *)

Lemma replace_go_skip (old new : str) (k : nat) (s : str) :
  replace_go old new k s = replace_go old new 0 (skipn k s).
Proof.
  revert k. induction s as [|c t IH]; intros k.
  - now destruct k.
  - destruct k as [|k]; [reflexivity|]. simpl skipn.
    change (replace_go old new (S k) (c :: t)) with (replace_go old new k t).
    apply IH.
Qed.

Lemma replace_go_occurrence (a : N) (old new r : str) :
  replace_go (a :: old) new 0 ((a :: old) ++ r)
  = new ++ replace_go (a :: old) new 0 r.
Proof.
  change ((a :: old) ++ r) with (a :: (old ++ r)).
  cbn [replace_go].
  change (a :: old ++ r) with ((a :: old) ++ r).
  rewrite prefixb_app. f_equal.
  rewrite replace_go_skip. f_equal.
  cbn [length]. replace (S (length old) - 1)%nat with (length old) by lia.
  now rewrite skipn_app, skipn_all, Nat.sub_diag.
Qed.

Lemma occurs_before_false (old : str) (n : nat) (s : str) :
  occurs_before old n s = false <->
  forall i, (i < n)%nat -> prefixb old (skipn i s) = false.
Proof.
  unfold occurs_before. split.
  - intros H i Hi. destruct (prefixb old (skipn i s)) eqn:E; [|reflexivity].
    rewrite <- H. symmetry. apply existsb_exists. exists i.
    split; [apply in_seq; lia | exact E].
  - intros H. apply not_true_is_false. intros E.
    apply existsb_exists in E as (i & Hi & E). apply in_seq in Hi.
    rewrite H in E by lia. discriminate.
Qed.

Lemma replace_go_no_occurrence (old new p r : str) :
  occurs_before old (length p) (p ++ r) = false ->
  replace_go old new 0 (p ++ r) = p ++ replace_go old new 0 r.
Proof.
  rewrite occurs_before_false.
  induction p as [|c p IH]; intros H; [reflexivity|].
  cbn [app replace_go].
  assert (H0 : prefixb old (c :: p ++ r) = false)
    by (apply (H 0%nat); simpl; lia).
  rewrite H0. f_equal. apply IH. intros i Hi. apply (H (S i)). simpl. lia.
Qed.

Lemma contains_false_prefix (old s : str) (i : nat) :
  contains old s = false -> prefixb old (skipn i s) = false.
Proof.
  revert i. induction s as [|c t IH]; intros i H.
  - simpl in H. apply orb_false_iff in H as [H _]. now destruct i.
  - cbn [contains] in H. apply orb_false_iff in H as [H1 H2].
    destruct i as [|i]; [exact H1 | now apply IH].
Qed.

Lemma replace_absent (a : N) (old new s : str) :
  contains (a :: old) s = false -> replace (a :: old) new s = s.
Proof.
  intros H. unfold replace.
  rewrite <- (app_nil_r s) at 1.
  rewrite replace_go_no_occurrence; [now rewrite app_nil_r|].
  apply occurs_before_false. intros i _. rewrite app_nil_r.
  now apply contains_false_prefix.
Qed.

Lemma replace_first_occurrence (a : N) (old new p r : str) :
  occurs_before (a :: old) (length p) (p ++ (a :: old) ++ r) = false ->
  replace (a :: old) new (p ++ (a :: old) ++ r)
  = p ++ new ++ replace (a :: old) new r.
Proof.
  intros H. unfold replace.
  rewrite replace_go_no_occurrence by exact H.
  now rewrite replace_go_occurrence.
Qed.

Lemma replace_go_In (old : str) (k : nat) (s : str) (c : N) :
  In c (replace_go old [] k s) -> In c s.
Proof.
  revert k. induction s as [|x t IH]; intros k H; [exact H|].
  destruct k as [|k]; cbn [replace_go] in H.
  - destruct (prefixb old (x :: t)).
    + right. exact (IH _ H).
    + destruct H as [H|H]; [now left | right; exact (IH _ H)].
  - right. exact (IH _ H).
Qed.

Lemma replace_empty_In (old s : str) (c : N) :
  In c (replace old [] s) -> In c s.
Proof.
  unfold replace. destruct old as [|a old].
  - cbn [app]. induction s as [|x t IH]; [tauto|].
    cbn [flat_map app]. intros [H|H]; [now left | right; auto].
  - apply replace_go_In.
Qed.

Lemma replace_char_absent (old s : str) (c : N) :
  In c old -> ~ In c s -> replace old [] s = s.
Proof.
  intros Hc Hs. destruct old as [|a old]; [destruct Hc|].
  apply replace_absent.
  induction s as [|x t IH].
  - reflexivity.
  - cbn [contains]. apply orb_false_iff. split.
    + destruct (prefixb (a :: old) (x :: t)) eqn:E; [|reflexivity].
      exfalso. apply Hs. exact (prefixb_In _ _ _ E Hc).
    + apply IH. intros H. apply Hs. now right.
Qed.

Lemma prefixb_app_short (old a b : str) :
  (length old <= length a)%nat -> prefixb old (a ++ b) = prefixb old a.
Proof.
  revert a. induction old as [|x old IH]; intros a H; [reflexivity|].
  destruct a as [|y a]; [simpl in H; lia|].
  cbn [app prefixb]. rewrite IH; [reflexivity | simpl in H; lia].
Qed.

Lemma occurs_before_app (old p r : str) :
  occurs_before old (length p) (p ++ old) = false ->
  occurs_before old (length p) (p ++ old ++ r) = false.
Proof.
  rewrite !occurs_before_false. intros H i Hi.
  rewrite <- (H i Hi), app_assoc.
  rewrite skipn_app.
  replace (i - length (p ++ old))%nat with 0%nat
    by (rewrite length_app; lia).
  cbn [skipn]. apply prefixb_app_short.
  rewrite length_skipn, length_app. lia.
Qed.

Lemma suffixes_nonempty (suffix : str) :
  In suffix suffixes -> exists a old, suffix = a :: old.
Proof.
  intros H.
  assert (E : forallb (fun s => match s with [] => false | _ :: _ => true end)
                suffixes = true) by (vm_compute; reflexivity).
  rewrite forallb_forall in E. specialize (E _ H).
  destruct suffix as [|a old]; [discriminate | eauto].
Qed.

Lemma replace_every_occurrence (a : N) (old : str) (pieces : list str)
    (rest : str) :
  Forall (fun p => occurs_before (a :: old) (length p) (p ++ a :: old) = false)
    pieces ->
  contains (a :: old) rest = false ->
  replace (a :: old) []
    (concat (List.map (fun p => p ++ a :: old) pieces) ++ rest)
  = concat pieces ++ rest.
Proof.
  intros Hp Hr. induction Hp as [|p ps Hp _ IH].
  - cbn [List.map concat app]. now apply replace_absent.
  - cbn [List.map concat]. rewrite <- !app_assoc.
    rewrite (replace_first_occurrence a old [] p).
    + cbn [app]. now rewrite IH.
    + now apply (occurs_before_app (a :: old)).
Qed.

(** ** The suffix-removal loop *)

(** C3 (as amended): the suffix loop takes the denylist strings in list
    order, each once, and one application removes, verbatim and
    case-sensitively, every occurrence of the string (found left to right
    without overlap): a name made of pieces each followed by the suffix,
    and a rest that does not contain it, loses all those occurrences. *)
Theorem remove_suffixes_every_occurrence (suffix : str) (l : list str)
    (pieces : list str) (rest : str) :
  In suffix suffixes ->
  Forall (fun p => occurs_before suffix (length p) (p ++ suffix) = false)
    pieces ->
  contains suffix rest = false ->
  remove_suffixes (suffix :: l)
    (concat (List.map (fun p => p ++ suffix) pieces) ++ rest)
  = remove_suffixes l (concat pieces ++ rest).
Proof.
  intros Hin Hp Hr. destruct (suffixes_nonempty _ Hin) as (a & old & ->).
  unfold remove_suffixes. cbn [fold_left].
  now rewrite replace_every_occurrence.
Qed.

Lemma remove_suffixes_every_occurrence_witness :
  remove_suffixes (lit "-latest" :: [lit "_Win64"])
    (concat (List.map (fun p => p ++ lit "-latest") [lit "a"; lit ""])
       ++ lit "")
  = remove_suffixes [lit "_Win64"] (concat [lit "a"; lit ""] ++ lit "").
Proof.
  apply (remove_suffixes_every_occurrence (lit "-latest") [lit "_Win64"]
           [lit "a"; lit ""] (lit "")).
  - vm_compute. left. reflexivity.
  - repeat constructor.
  - reflexivity.
Defined.

(** C3 (as stated) fails: both occurrences of ['-latest'] are removed from
    ["a-latest-latest"], where removal of one occurrence would leave
    ["a-latest"]. *)
Lemma remove_suffixes_once_counterexample :
  remove_suffixes suffixes (lit "a-latest-latest") = lit "a"
  /\ remove_suffixes_once suffixes (lit "a-latest-latest") = lit "a-latest"
  /\ remove_suffixes suffixes (lit "a-latest-latest")
     <> remove_suffixes_once suffixes (lit "a-latest-latest").
Proof.
  split; [vm_compute; reflexivity|].
  split; [vm_compute; reflexivity|].
  vm_compute. discriminate.
Qed.

(** ** No underscore reaches the suffix loop *)

Lemma replace_underscore_In (s : str) (c : N) :
  In c (replace (lit "_") (lit " ") s) -> c <> 95.
Proof.
  change (lit "_") with [95]. change (lit " ") with [32]. unfold replace.
  induction s as [|x t IH]; [intros []|].
  cbn [replace_go prefixb length Nat.sub].
  destruct (95 =? x) eqn:E; cbn [andb app].
  - intros [<-|H]; [discriminate | auto].
  - intros [<-|H]; [|auto]. apply N.eqb_neq in E. congruence.
Qed.

Lemma camel_split_In_bounded (n : nat) (s : str) (c : N) :
  (length s <= n)%nat -> In c (camel_split s) -> c = 32 \/ In c s.
Proof.
  revert s. induction n as [|n IH]; intros s Hn H.
  - destruct s; [destruct H | simpl in Hn; lia].
  - destruct s as [|a [|b t]]; [destruct H | right; exact H |].
    cbn [camel_split] in H. destruct (is_az a && is_AZ b).
    + destruct H as [<-|[<-|[<-|H]]]; [right; now left | now left
        | right; right; now left |].
      destruct (IH t ltac:(simpl in Hn; lia) H) as [->|Ht];
        [now left | right; right; now right].
    + destruct H as [<-|H]; [right; now left|].
      destruct (IH (b :: t) ltac:(simpl in Hn |- *; lia) H) as [->|Ht];
        [now left | right; now right].
Qed.

Lemma camel_split_In (s : str) (c : N) :
  In c (camel_split s) -> c = 32 \/ In c s.
Proof. apply (camel_split_In_bounded (length s)). lia. Qed.

Lemma before_suffix_removal_no_underscore (name : str) :
  ~ In 95 (before_suffix_removal name).
Proof.
  unfold before_suffix_removal. intros H.
  apply camel_split_In in H as [H|H]; [discriminate|].
  now apply replace_underscore_In in H.
Qed.

Lemma remove_suffixes_app (l1 l2 : list str) (s : str) :
  remove_suffixes (l1 ++ l2) s = remove_suffixes l2 (remove_suffixes l1 s).
Proof. unfold remove_suffixes. apply fold_left_app. Qed.

Lemma remove_suffixes_In (l : list str) (s : str) (c : N) :
  In c (remove_suffixes l s) -> In c s.
Proof.
  revert s. induction l as [|x l IH]; intros s H; [exact H|].
  unfold remove_suffixes in *. cbn [fold_left] in H.
  apply IH in H. now apply replace_empty_In in H.
Qed.

Lemma remove_suffixes_without_win64 (s : str) :
  ~ In 95 s ->
  remove_suffixes suffixes s = remove_suffixes suffixes_without_win64 s.
Proof.
  intros Hs.
  assert (E1 : suffixes
               = firstn 2 suffixes ++ [lit "_Win64"] ++ skipn 3 suffixes)
    by reflexivity.
  assert (E2 : suffixes_without_win64 = firstn 2 suffixes ++ skipn 3 suffixes)
    by (vm_compute; reflexivity).
  rewrite E2, E1 at 1. rewrite !remove_suffixes_app. f_equal.
  unfold remove_suffixes at 1. cbn [fold_left].
  apply (replace_char_absent _ _ 95).
  - vm_compute. left. reflexivity.
  - intros H. apply Hs. exact (remove_suffixes_In _ _ _ H).
Qed.

(** ** [clean_game_name] *)

(** C10: the string that reaches the suffix loop of [clean_game_name] never
    contains an underscore, so the entry ['_Win64'] never matches: with or
    without it in the list, [clean_game_name] returns the same string. *)
Theorem win64_suffix_is_dead (self : ROMDownloader) (name : str) :
  ~ In 95 (before_suffix_removal name)
  /\ clean_game_name self name
     = strip (join (lit " ")
                (split_ws
                   (remove_suffixes suffixes (before_suffix_removal name))))
  /\ clean_game_name self name = clean_game_name_without_win64 self name.
Proof.
  split; [apply before_suffix_removal_no_underscore|].
  split; [reflexivity|].
  unfold clean_game_name, clean_game_name_without_win64,
    clean_game_name_with, finish_with.
  cbv zeta. f_equal. f_equal. f_equal.
  apply remove_suffixes_without_win64.
  apply before_suffix_removal_no_underscore.
Qed.

(** C4: [clean_game_name] is a total function of its argument alone: for
    every string it returns a string, the same whatever the state of the
    object it is called on (its database, its mapping, earlier lookups),
    and the empty string gives the empty string. *)
Theorem clean_game_name_pure_total (self1 self2 : ROMDownloader) (name : str) :
  (exists out : str,
      clean_game_name self1 name = out /\ clean_game_name self2 name = out)
  /\ clean_game_name self1 [] = [].
Proof.
  split; [|reflexivity].
  exists (clean_game_name_with suffixes name). split; reflexivity.
Qed.

(** ** The trailing parenthesised group *)

Lemma is_space_not_paren (c : N) : is_space c = true -> (c =? 40) = false.
Proof.
  intros H. destruct (c =? 40) eqn:E; [|reflexivity].
  apply N.eqb_eq in E. subst c. discriminate H.
Qed.

Lemma group_tail_closed (g w' : str) :
  existsb (N.eqb 41) g = false ->
  group_tail (g ++ 41 :: w') = forallb is_space w'.
Proof.
  induction g as [|c g IH]; intros H; [reflexivity|].
  cbn [existsb] in H. apply orb_false_iff in H as [Hc Hg].
  cbn [app group_tail]. rewrite (N.eqb_sym c 41), Hc. now apply IH.
Qed.

Lemma group_at_spaces (w r : str) :
  forallb is_space w = true -> group_at (w ++ 40 :: r) = group_tail r.
Proof.
  induction w as [|c w IH]; intros H; [reflexivity|].
  cbn [forallb] in H. apply andb_true_iff in H as [Hc Hw].
  cbn [app group_at]. rewrite (is_space_not_paren _ Hc), Hc. now apply IH.
Qed.

Lemma group_tail_no_match (r m : str) :
  existsb (N.eqb 41) r = true -> forallb is_space m = false ->
  group_tail (r ++ m) = false.
Proof.
  induction r as [|c r IH]; intros Hr Hm; [discriminate|].
  cbn [existsb] in Hr. cbn [app group_tail].
  destruct (c =? 41) eqn:E.
  - rewrite forallb_app, Hm. apply andb_false_r.
  - rewrite N.eqb_sym, E in Hr. now apply IH.
Qed.

Lemma ends_with_space_cons (c : N) (s : str) :
  s <> [] -> ends_with_space (c :: s) = ends_with_space s.
Proof.
  intros Hs. unfold ends_with_space. cbn [rev].
  destruct (rev s) as [|x r] eqn:E; [|reflexivity].
  apply (f_equal (@rev N)) in E. rewrite rev_involutive in E. contradiction.
Qed.

Lemma group_at_no_match (s m : str) :
  s <> [] -> unclosed s = false -> ends_with_space s = false ->
  forallb is_space m = false ->
  group_at (s ++ m) = false.
Proof.
  intros Hs Hu He Hm. induction s as [|c s IH]; [contradiction|].
  cbn [unclosed] in Hu. apply orb_false_iff in Hu as [Hc Hu].
  cbn [app group_at]. destruct (c =? 40) eqn:E40.
  - cbn [andb] in Hc. apply negb_false_iff in Hc.
    now apply group_tail_no_match.
  - destruct (is_space c) eqn:Esp; [|reflexivity].
    destruct s as [|d s'].
    + unfold ends_with_space in He. cbn in He. congruence.
    + apply IH; [discriminate | exact Hu |].
      rewrite ends_with_space_cons in He by discriminate. exact He.
Qed.

Lemma strip_paren_leftmost (p m : str) :
  unclosed p = false -> ends_with_space p = false ->
  group_at m = true -> forallb is_space m = false ->
  strip_paren (p ++ m) = p.
Proof.
  intros Hu He Hg Hm. induction p as [|c p IH].
  - destruct m as [|x m]; [discriminate|].
    cbn [app strip_paren]. now rewrite Hg.
  - cbn [app strip_paren].
    change (c :: p ++ m) with ((c :: p) ++ m).
    rewrite (group_at_no_match (c :: p) m) by (assumption || discriminate).
    f_equal. apply IH.
    + cbn [unclosed] in Hu. now apply orb_false_iff in Hu as [_ Hu].
    + destruct p as [|d p']; [reflexivity|].
      rewrite ends_with_space_cons in He by discriminate. exact He.
Qed.

(** Whatever the body, the stripping step keeps a prefix of it and drops a
    suffix that is empty or matches the pattern. *)
Lemma strip_paren_prefix (s : str) :
  exists m, s = strip_paren s ++ m /\ (m = [] \/ group_at m = true).
Proof.
  induction s as [|c t IH].
  - exists []. split; [reflexivity | now left].
  - cbn [strip_paren]. destruct (group_at (c :: t)) eqn:E.
    + exists (c :: t). split; [reflexivity | now right].
    + destruct IH as (m & Hm & H). exists m. split; [|exact H].
      cbn [app]. now rewrite <- Hm.
Qed.

(** C2 (as amended): when the name body is [p], then optional white space,
    a parenthesised group without [)] inside, then optional white space,
    and [p] neither ends in white space nor leaves a parenthesis open, the
    stripping step removes exactly that trailing group with the white space
    around it and leaves [p]; what [clean_game_name] returns is [p] after
    the later steps (underscores, camel case, suffixes, white space), which
    may change [p] further. *)
Theorem trailing_group_removed (self : ROMDownloader) (raw p w g w' : str) :
  fst (splitext raw) = p ++ w ++ 40 :: g ++ 41 :: w' ->
  forallb is_space w = true ->
  forallb is_space w' = true ->
  existsb (N.eqb 41) g = false ->
  unclosed p = false ->
  ends_with_space p = false ->
  strip_paren (fst (splitext raw)) = p
  /\ clean_game_name self raw = finish_with suffixes p.
Proof.
  intros Hbody Hw Hw' Hg Hu He.
  assert (Hs : strip_paren (fst (splitext raw)) = p).
  { rewrite Hbody. apply strip_paren_leftmost; try assumption.
    - rewrite group_at_spaces by assumption.
      now rewrite group_tail_closed.
    - rewrite forallb_app. cbn [forallb].
      change (is_space 40) with false. cbn [andb]. apply andb_false_r. }
  split; [exact Hs|].
  unfold clean_game_name, clean_game_name_with. cbv zeta. now rewrite Hs.
Qed.

Lemma trailing_group_removed_witness :
  strip_paren (fst (splitext (lit "Super_Mario_Bros_ (USA).zip")))
  = lit "Super_Mario_Bros_"
  /\ clean_game_name fresh_downloader (lit "Super_Mario_Bros_ (USA).zip")
     = finish_with suffixes (lit "Super_Mario_Bros_").
Proof.
  apply (trailing_group_removed fresh_downloader
           (lit "Super_Mario_Bros_ (USA).zip") (lit "Super_Mario_Bros_")
           (lit " ") (lit "USA") (lit ""));
    vm_compute; reflexivity.
Defined.

(** C2 (as stated) fails: the body of ["Super_Mario_Bros_(USA).zip"] is
    ["Super_Mario_Bros_"] followed by the group ["(USA)"], and the result
    is not ["Super_Mario_Bros_"]: the underscores of the body are changed
    as well. *)
Lemma trailing_group_only_counterexample :
  fst (splitext (lit "Super_Mario_Bros_(USA).zip"))
  = lit "Super_Mario_Bros_" ++ lit "(USA)"
  /\ clean_game_name fresh_downloader (lit "Super_Mario_Bros_(USA).zip")
     = lit "Super Mario Bros"
  /\ clean_game_name fresh_downloader (lit "Super_Mario_Bros_(USA).zip")
     <> lit "Super_Mario_Bros_".
Proof.
  split; [vm_compute; reflexivity|].
  split; [vm_compute; reflexivity|].
  vm_compute. discriminate.
Qed.

(** ** White-space clean-up adds no characters *)

Lemma lstrip_In (s : str) (c : N) : In c (lstrip s) -> In c s.
Proof.
  induction s as [|x t IH]; [intros []|].
  cbn [lstrip]. destruct (is_space x); [right; auto | auto].
Qed.

Lemma strip_In (s : str) (c : N) : In c (strip s) -> In c s.
Proof.
  unfold strip. intros H.
  apply in_rev, lstrip_In, in_rev, lstrip_In in H. exact H.
Qed.

Lemma split_go_In (word s w : str) (c : N) :
  In w (split_go word s) -> In c w -> In c word \/ In c s.
Proof.
  revert word. induction s as [|x t IH]; intros word Hw Hc.
  - destruct word; [destruct Hw|].
    destruct Hw as [<-|[]]. now left.
  - cbn [split_go] in Hw. destruct (is_space x).
    + destruct word as [|y word'].
      * destruct (IH _ Hw Hc) as [[]|H]. right. now right.
      * destruct Hw as [<-|Hw]; [now left|].
        destruct (IH _ Hw Hc) as [[]|H]. right. now right.
    + destruct (IH _ Hw Hc) as [H|H]; [|right; now right].
      apply in_app_or in H as [H|[<-|[]]]; [now left | right; now left].
Qed.

Lemma join_In (sep : str) (l : list str) (c : N) :
  In c (join sep l) -> In c sep \/ exists w, In w l /\ In c w.
Proof.
  induction l as [|w r IH]; [intros []|].
  cbn [join]. destruct r as [|w' r'].
  - intros H. right. exists w. split; [now left | exact H].
  - intros H. apply in_app_or in H as [H|H].
    + right. exists w. split; [now left | exact H].
    + apply in_app_or in H as [H|H]; [now left|].
      destruct (IH H) as [Hs|(x & Hx & Hc)]; [now left|].
      right. exists x. split; [now right | exact Hc].
Qed.

Lemma clean_game_name_no_underscore (self : ROMDownloader) (name : str) :
  ~ In 95 (clean_game_name self name).
Proof.
  unfold clean_game_name, clean_game_name_with, finish_with. cbv zeta.
  intros H. apply strip_In, join_In in H.
  destruct H as [H|(w & Hw & Hc)].
  - vm_compute in H. destruct H as [H|[]]. discriminate.
  - unfold split_ws in Hw.
    destruct (split_go_In _ _ _ _ Hw Hc) as [[]|H'].
    apply remove_suffixes_In in H'.
    exact (before_suffix_removal_no_underscore name H').
Qed.

(** ** [LIKE] *)

Lemma like_percent (pat text : str) :
  like (37 :: pat) text
  = like pat text
    || match text with [] => false | _ :: t' => like (37 :: pat) t' end.
Proof. destruct text; reflexivity. Qed.

Lemma like_percent_nil (text : str) : like [37] text = true.
Proof.
  induction text as [|x t IH]; [reflexivity|].
  rewrite like_percent. cbn [like]. exact IH.
Qed.

Lemma sql_lower_char_idem (c : N) :
  sql_lower_char (sql_lower_char c) = sql_lower_char c.
Proof.
  unfold sql_lower_char, is_AZ.
  destruct ((65 <=? c) && (c <=? 90)) eqn:E; [|now rewrite E].
  apply andb_true_iff in E as [E1 E2].
  apply N.leb_le in E1, E2.
  replace (65 <=? c + 32) with true by (symmetry; apply N.leb_le; lia).
  replace (c + 32 <=? 90) with false by (symmetry; apply N.leb_gt; lia).
  reflexivity.
Qed.

Lemma sql_lower_char_plain (c : N) : plain c -> plain (sql_lower_char c).
Proof.
  unfold plain, sql_lower_char, is_AZ. intros [H1 H2].
  destruct ((65 <=? c) && (c <=? 90)) eqn:E; [|tauto].
  apply andb_true_iff in E as [E1 E2]. apply N.leb_le in E1, E2. lia.
Qed.

Lemma like_literal_prefix (n t : str) :
  Forall plain n ->
  like (sql_lower n ++ [37]) (sql_lower t)
  = prefixb (sql_lower n) (sql_lower t).
Proof.
  intros Hn. revert t. induction Hn as [|c n Hc _ IH]; intros t.
  - apply like_percent_nil.
  - destruct (sql_lower_char_plain _ Hc) as [H37 H95].
    cbn [sql_lower List.map app like].
    apply N.eqb_neq in H37, H95. rewrite H37.
    destruct t as [|x t]; [reflexivity|].
    change (sql_lower (x :: t)) with (sql_lower_char x :: sql_lower t).
    cbv iota. rewrite H95. cbn [orb].
    rewrite (sql_lower_char_idem c), (sql_lower_char_idem x).
    cbn [prefixb]. f_equal. apply IH.
Qed.

Lemma like_contains (n t : str) :
  Forall plain n ->
  like (sql_lower (37 :: n ++ [37])) (sql_lower t)
  = contains (sql_lower n) (sql_lower t).
Proof.
  intros Hn. unfold sql_lower at 1. rewrite List.map_cons, List.map_app.
  change (sql_lower_char 37) with 37.
  change (List.map sql_lower_char [37]) with [37].
  change (List.map sql_lower_char n) with (sql_lower n).
  induction t as [|x t IH].
  - rewrite like_percent.
    rewrite (like_literal_prefix n []) by assumption. reflexivity.
  - rewrite like_percent.
    rewrite (like_literal_prefix n (x :: t)) by assumption.
    change (sql_lower (x :: t)) with (sql_lower_char x :: sql_lower t).
    cbv iota. rewrite IH. reflexivity.
Qed.

(** Substring containment implies the [LIKE] match, whatever the name. *)
Lemma contains_like (n t : str) :
  contains (sql_lower n) (sql_lower t) = true ->
  like (sql_lower (37 :: n ++ [37])) (sql_lower t) = true.
Proof.
  unfold sql_lower at 3. rewrite List.map_cons, List.map_app.
  change (sql_lower_char 37) with 37.
  change (List.map sql_lower_char [37]) with [37].
  change (List.map sql_lower_char n) with (sql_lower n).
  assert (P : forall m u, prefixb (sql_lower m) (sql_lower u) = true ->
                          like (sql_lower m ++ [37]) (sql_lower u) = true).
  { induction m as [|c m IHm]; intros u Hu; [apply like_percent_nil|].
    destruct u as [|x u]; [discriminate|].
    cbn [sql_lower List.map prefixb] in Hu.
    apply andb_true_iff in Hu as [E Hu]. apply N.eqb_eq in E.
    cbn [sql_lower List.map app]. rewrite <- E.
    change (List.map sql_lower_char m) with (sql_lower m).
    change (List.map sql_lower_char u) with (sql_lower u).
    destruct (sql_lower_char c =? 37) eqn:E37.
    - apply N.eqb_eq in E37. rewrite E37. rewrite like_percent.
      apply orb_true_iff. right. rewrite like_percent.
      apply orb_true_iff. left. now apply IHm.
    - cbn [like]. rewrite E37, sql_lower_char_idem, N.eqb_refl, orb_true_r.
      cbn [andb]. now apply IHm. }
  induction t as [|x t IH]; intros H.
  - cbn [sql_lower List.map contains] in H. rewrite orb_false_r in H.
    rewrite like_percent. apply orb_true_iff. left. now apply (P n []).
  - cbn [sql_lower List.map contains] in H.
    change (List.map sql_lower_char t) with (sql_lower t) in H.
    apply orb_true_iff in H as [H|H].
    + rewrite like_percent. apply orb_true_iff. left. now apply (P n (x :: t)).
    + rewrite like_percent. apply orb_true_iff. right.
      cbn [sql_lower List.map]. now apply IH.
Qed.

(** ** The game resolver *)

Lemma on_platform_true (system_id : Z) (g : GameRow) :
  on_platform system_id g = true <-> platform g = Some system_id.
Proof.
  unfold on_platform. destruct (platform g) as [p|].
  - rewrite Z.eqb_eq. split; congruence.
  - split; discriminate.
Qed.

Lemma exact_title_true (clean_name : str) (g : GameRow) :
  exact_title clean_name g = true
  <-> sql_lower (game_title g) = sql_lower clean_name.
Proof. apply str_eqb_eq. Qed.

(** What [find_game_in_db] returns, in terms of the two queries: the first
    row of the platform whose lowered title equals the lowered clean name;
    failing that the first row of the platform whose lowered title matches
    the [LIKE] pattern; failing that nothing. *)
Lemma find_game_in_db_like (self : ROMDownloader) (game_name : str)
    (system_id : Z) :
  match find_game_in_db self game_name system_id with
  | Some r =>
      exists g, In g (games (db_conn self))
        /\ r = (game_id g, game_title g)
        /\ platform g = Some system_id
        /\ (exact_title (clean_game_name self game_name) g = true
            \/ ((forall g', In g' (games (db_conn self)) ->
                   platform g' = Some system_id ->
                   exact_title (clean_game_name self game_name) g' = false)
                /\ like_title (clean_game_name self game_name) g = true))
  | None =>
      forall g, In g (games (db_conn self)) ->
        platform g = Some system_id ->
        exact_title (clean_game_name self game_name) g = false
        /\ like_title (clean_game_name self game_name) g = false
  end.
Proof.
  unfold find_game_in_db, fetchone. cbv zeta.
  set (clean := clean_game_name self game_name).
  set (rows := games (db_conn self)).
  assert (Hnone : forall cond,
             find (fun g => on_platform system_id g && cond g) rows = None ->
             forall g, In g rows -> platform g = Some system_id ->
                       cond g = false).
  { intros cond E g Hg Hp. pose proof (find_none _ _ E g Hg) as H.
    cbv beta in H. apply on_platform_true in Hp. rewrite Hp in H.
    exact H. }
  destruct (find (fun g => on_platform system_id g && exact_title clean g)
              rows) as [g|] eqn:E1; cbn [option_map].
  - apply find_some in E1 as [Hg Hc]. apply andb_true_iff in Hc as [Hp He].
    exists g. repeat split; try assumption.
    + now apply on_platform_true.
    + now left.
  - destruct (find (fun g => on_platform system_id g && like_title clean g)
                rows) as [g|] eqn:E2; cbn [option_map].
    + apply find_some in E2 as [Hg Hc].
      apply andb_true_iff in Hc as [Hp Hl].
      exists g. repeat split; try assumption.
      * now apply on_platform_true.
      * right. split; [|exact Hl]. exact (Hnone _ E1).
    + intros g Hg Hp. split.
      * exact (Hnone _ E1 g Hg Hp).
      * exact (Hnone _ E2 g Hg Hp).
Qed.

Lemma clean_name_plain (self : ROMDownloader) (name : str) :
  ~ In 37 (clean_game_name self name) ->
  Forall plain (clean_game_name self name).
Proof.
  intros H. apply List.Forall_forall. intros c Hc. split.
  - intros ->. contradiction.
  - intros ->. exact (clean_game_name_no_underscore self name Hc).
Qed.

(** C1 (as amended): for a name whose normalised form has no [%] in it,
    [find_game_in_db] normalises the name and returns a row of the
    platform whose title equals the normalised name up to ASCII case when
    there is one; otherwise a row of the platform whose title contains the
    normalised name up to ASCII case (the name inside the title, not the
    reverse); and nothing when no row of the platform does.  The name and
    the titles are text SQLite reads to its end (no U+0000, no lone
    surrogate) and the pattern is within the 50000 bytes SQLite accepts;
    outside of that the queries raise or stop at U+0000. *)
Theorem find_game_in_db_resolves (self : ROMDownloader) (game_name : str)
    (system_id : Z) :
  ~ In 37 (clean_game_name self game_name) ->
  sql_text (clean_game_name self game_name) ->
  like_pattern_fits (clean_game_name self game_name) ->
  (forall g, In g (games (db_conn self)) -> sql_text (game_title g)) ->
  match find_game_in_db self game_name system_id with
  | Some r =>
      exists g, In g (games (db_conn self))
        /\ r = (game_id g, game_title g)
        /\ platform g = Some system_id
        /\ (sql_lower (game_title g)
            = sql_lower (clean_game_name self game_name)
            \/ ((forall g', In g' (games (db_conn self)) ->
                   platform g' = Some system_id ->
                   sql_lower (game_title g')
                   <> sql_lower (clean_game_name self game_name))
                /\ contains (sql_lower (clean_game_name self game_name))
                     (sql_lower (game_title g)) = true))
  | None =>
      forall g, In g (games (db_conn self)) ->
        platform g = Some system_id ->
        sql_lower (game_title g)
        <> sql_lower (clean_game_name self game_name)
        /\ contains (sql_lower (clean_game_name self game_name))
             (sql_lower (game_title g)) = false
  end.
Proof.
  intros Hpct _ _ _. pose proof (clean_name_plain _ _ Hpct) as Hplain.
  pose proof (find_game_in_db_like self game_name system_id) as H.
  unfold like_title, exact_title in H.
  destruct (find_game_in_db self game_name system_id) as [r|].
  - destruct H as (g & Hg & Hr & Hp & H). exists g.
    repeat split; try assumption.
    destruct H as [H|[Hno Hl]].
    + left. now apply str_eqb_eq.
    + right. split.
      * intros g' Hg' Hp'. apply str_eqb_neq. now apply Hno.
      * now rewrite <- like_contains.
  - intros g Hg Hp. destruct (H g Hg Hp) as [He Hl]. split.
    + now apply str_eqb_neq.
    + now rewrite <- like_contains.
Qed.

Lemma find_game_in_db_resolves_witness :
  match find_game_in_db
          (downloader_with_games [mk_game 1 (lit "The Legend of Zelda") 1])
          (lit "Legend_of_Zelda.zip") 1 with
  | Some r => r = (1%Z, lit "The Legend of Zelda")
  | None => False
  end.
Proof.
  pose proof (find_game_in_db_resolves
                (downloader_with_games
                   [mk_game 1 (lit "The Legend of Zelda") 1])
                (lit "Legend_of_Zelda.zip") 1) as H.
  assert (Hpct : ~ In 37 (clean_game_name
                            (downloader_with_games
                               [mk_game 1 (lit "The Legend of Zelda") 1])
                            (lit "Legend_of_Zelda.zip"))).
  { apply existsb_eqb_In. vm_compute. reflexivity. }
  assert (Htext : sql_text (clean_game_name
                              (downloader_with_games
                                 [mk_game 1 (lit "The Legend of Zelda") 1])
                              (lit "Legend_of_Zelda.zip"))).
  { vm_compute. reflexivity. }
  assert (Hfits : like_pattern_fits
                    (clean_game_name
                       (downloader_with_games
                          [mk_game 1 (lit "The Legend of Zelda") 1])
                       (lit "Legend_of_Zelda.zip"))).
  { vm_compute. reflexivity. }
  assert (Htitles : forall g,
             In g (games (db_conn
                            (downloader_with_games
                               [mk_game 1 (lit "The Legend of Zelda") 1]))) ->
             sql_text (game_title g)).
  { intros g [<-|[]]. vm_compute. reflexivity. }
  specialize (H Hpct Htext Hfits Htitles).
  destruct (find_game_in_db _ _ _) as [r|].
  - destruct H as (g & Hg & Hr & _). destruct Hg as [<-|[]]. exact Hr.
  - destruct (H (mk_game 1 (lit "The Legend of Zelda") 1)) as [_ Hc];
      [now left | reflexivity | vm_compute in Hc; discriminate Hc].
Defined.

(** C1 (as stated) fails: the normalised name ["50%off"] is not contained
    in the title ["50 bucks off"], yet the row is returned, because [%] in
    the name is a wildcard of the [LIKE] pattern. *)
Lemma find_game_in_db_counterexample :
  clean_game_name (downloader_with_games [mk_game 1 (lit "50 bucks off") 1])
    (lit "50%off.zip") = lit "50%off"
  /\ contains (sql_lower (lit "50%off")) (sql_lower (lit "50 bucks off"))
     = false
  /\ find_game_in_db
       (downloader_with_games [mk_game 1 (lit "50 bucks off") 1])
       (lit "50%off.zip") 1
     = Some (1%Z, lit "50 bucks off").
Proof. repeat split; vm_compute; reflexivity. Qed.

(** ** Platform name resolution *)

Lemma variation_match_iff (variations : list str) (d : SystemRow) :
  variation_match variations d = true <-> variation_matches variations d.
Proof.
  unfold variation_match, variation_matches.
  rewrite orb_true_iff, str_in_In. split.
  - intros [H|H]; [now left|]. right.
    destruct (sys_alias d) as [a|]; [|discriminate].
    exists a. split; [reflexivity | now apply str_in_In].
  - intros [H|(a & Ha & H)]; [now left|]. right.
    rewrite Ha. now apply str_in_In.
Qed.

Lemma find_first {A : Type} (f : A -> bool) (pre post : list A) (d : A) :
  (forall x, In x pre -> f x = false) -> f d = true ->
  find f (pre ++ d :: post) = Some d.
Proof.
  intros Hpre Hd. induction pre as [|x pre IH]; cbn [app find].
  - now rewrite Hd.
  - rewrite (Hpre x) by now left. apply IH. intros y Hy. apply Hpre.
    now right.
Qed.

Section SystemMappingFacts.

Variable get_close_matches : str -> list str -> list str.
Variable db_systems : list SystemRow.

Lemma get_system_mapping_lookup (cores : list CoreSystem) (n : str) :
  get_system_mapping get_close_matches db_systems cores !! n
  = if existsb (fun s => str_eqb (core_name s) n) cores
    then map_system get_close_matches db_systems n
    else None.
Proof.
  unfold get_system_mapping.
  assert (G : forall (m0 : gmap str Z),
             fold_left
               (fun mapping system =>
                  match map_system get_close_matches db_systems
                          (core_name system) with
                  | Some id => <[core_name system := id]> mapping
                  | None => mapping
                  end) cores m0 !! n
             = if existsb (fun s => str_eqb (core_name s) n) cores
               then match map_system get_close_matches db_systems n with
                    | Some i => Some i
                    | None => m0 !! n
                    end
               else m0 !! n).
  { induction cores as [|s rest IH]; intros m0; [reflexivity|].
    cbn [fold_left existsb]. rewrite IH.
    destruct (str_eqb (core_name s) n) eqn:E.
    - apply str_eqb_eq in E. subst n. cbn [orb].
      destruct (map_system get_close_matches db_systems (core_name s))
        as [i|] eqn:M.
      + now destruct (existsb _ rest); [|rewrite lookup_insert_eq].
      + now destruct (existsb _ rest).
    - apply str_eqb_neq in E. cbn [orb].
      destruct (map_system get_close_matches db_systems (core_name s))
        as [i|] eqn:M; [|reflexivity].
      rewrite lookup_insert_ne by exact E. reflexivity. }
  rewrite G, lookup_empty.
  destruct (existsb _ cores); [|reflexivity].
  now destruct (map_system get_close_matches db_systems n).
Qed.

(** C5 (as amended): for a system name of the alias table, the first
    stored system whose name equals one of the known aliases up to case,
    or whose alias is one of them exactly as written, is the one the
    name is mapped to.  The stored names are in the range U+0000 to
    U+00FF, in which the case folding is the one modelled. *)
Theorem first_variation_match_wins (cores : list CoreSystem)
    (system : CoreSystem) (variations : list str)
    (pre post : list SystemRow) (d : SystemRow) :
  (forall x, In x db_systems -> latin1 (sys_name x)) ->
  In system cores ->
  name_variations !! core_name system = Some variations ->
  db_systems = pre ++ d :: post ->
  (forall x, In x pre -> ~ variation_matches variations x) ->
  variation_matches variations d ->
  match_by_variations variations db_systems = Some d
  /\ get_system_mapping get_close_matches db_systems cores
       !! core_name system = Some (sys_id d).
Proof.
  intros _ Hin Hv Hdb Hpre Hd.
  assert (Hm : match_by_variations variations db_systems = Some d).
  { unfold match_by_variations. rewrite Hdb. apply find_first.
    - intros x Hx. apply not_true_is_false. intros E.
      apply variation_match_iff in E. exact (Hpre x Hx E).
    - now apply variation_match_iff. }
  split; [exact Hm|].
  rewrite get_system_mapping_lookup.
  replace (existsb (fun s => str_eqb (core_name s) (core_name system)) cores)
    with true.
  - unfold map_system. now rewrite Hv, Hm.
  - symmetry. apply existsb_exists. exists system.
    split; [exact Hin | now apply str_eqb_eq].
Qed.

End SystemMappingFacts.

Lemma first_variation_match_wins_witness :
  match_by_variations nes_variations [atari_system; nes_system]
  = Some nes_system
  /\ get_system_mapping no_close_matches [atari_system; nes_system] [nes_core]
       !! core_name nes_core = Some (sys_id nes_system).
Proof.
  apply (first_variation_match_wins no_close_matches
           [atari_system; nes_system] [nes_core] nes_core nes_variations
           [atari_system] [] nes_system).
  - intros x [<-|[<-|[]]]; vm_compute; reflexivity.
  - left. reflexivity.
  - vm_compute. reflexivity.
  - reflexivity.
  - intros x [<-|[]] H. apply variation_match_iff in H.
    vm_compute in H. discriminate H.
  - apply variation_match_iff. vm_compute. reflexivity.
Defined.

(** C5 (as stated) fails: the stored alias ["NES"] differs from the known
    alias ["nes"] only in letter case, and the stored system is neither
    matched by the first loop nor mapped at all. *)
Lemma alias_case_counterexample :
  name_variations !! nes_name = Some nes_variations
  /\ variation_matches_nocase nes_variations famicom_system
  /\ match_by_variations nes_variations [famicom_system] = None
  /\ get_system_mapping no_close_matches [famicom_system] [nes_core]
       !! nes_name = None.
Proof.
  split; [vm_compute; reflexivity|].
  split.
  - right. exists (lit "NES"). split; [reflexivity|].
    vm_compute. right. left. reflexivity.
  - split; vm_compute; reflexivity.
Qed.

(** ** Artwork lookup *)

Lemma insert_sorted_perm (a : ArtworkRow) (l : list ArtworkRow) :
  Permutation (insert_sorted a l) (a :: l).
Proof.
  induction l as [|b l IH]; cbn [insert_sorted]; [reflexivity|].
  destruct (art_leb a b); [reflexivity|].
  rewrite IH. apply perm_swap.
Qed.

Lemma order_by_type_id_perm (l : list ArtworkRow) :
  Permutation (order_by_type_id l) l.
Proof.
  unfold order_by_type_id.
  induction l as [|a l IH]; cbn [fold_right]; [reflexivity|].
  rewrite insert_sorted_perm. now apply perm_skip.
Qed.

Lemma artwork_wanted_true (game : Z) (a : ArtworkRow) :
  artwork_wanted game a = true
  <-> art_game_id a = game
      /\ (art_type a = lit "boxart" \/ art_type a = lit "screenshot").
Proof.
  unfold artwork_wanted.
  rewrite andb_true_iff, orb_true_iff, Z.eqb_eq, !str_eqb_eq. reflexivity.
Qed.

(** C6 (as amended): [get_artwork_urls] returns exactly the artwork rows
    of the game whose type is ['boxart'] or ['screenshot'] (each once, as
    its filename and type), and no row of another type. *)
Theorem get_artwork_urls_boxart_screenshot (self : ROMDownloader) (game : Z) :
  Permutation (get_artwork_urls self game)
    (List.map filename_type
       (List.filter (artwork_wanted game) (game_artwork (db_conn self))))
  /\ (forall r, In r (get_artwork_urls self game) ->
        url_type r = lit "boxart" \/ url_type r = lit "screenshot")
  /\ (forall r, In r (get_artwork_urls self game) <->
        exists a, In a (game_artwork (db_conn self))
          /\ art_game_id a = game
          /\ (art_type a = lit "boxart" \/ art_type a = lit "screenshot")
          /\ r = filename_type a).
Proof.
  assert (P : Permutation (get_artwork_urls self game)
                (List.map filename_type
                   (List.filter (artwork_wanted game)
                      (game_artwork (db_conn self))))).
  { unfold get_artwork_urls. apply Permutation_map, order_by_type_id_perm. }
  assert (I : forall r, In r (get_artwork_urls self game) <->
                exists a, In a (game_artwork (db_conn self))
                  /\ art_game_id a = game
                  /\ (art_type a = lit "boxart"
                      \/ art_type a = lit "screenshot")
                  /\ r = filename_type a).
  { intros r. split.
    - intros H. apply (Permutation_in _ P) in H.
      apply in_map_iff in H as (a & <- & Ha).
      apply filter_In in Ha as [Ha Hw].
      apply artwork_wanted_true in Hw as [Hg Ht].
      exists a. repeat split; assumption.
    - intros (a & Ha & Hg & Ht & ->).
      apply (Permutation_in _ (Permutation_sym P)).
      apply in_map. apply filter_In. split; [exact Ha|].
      apply artwork_wanted_true. split; assumption. }
  split; [exact P|]. split; [|exact I].
  intros r Hr. apply I in Hr as (a & _ & _ & Ht & ->). exact Ht.
Qed.

(** C6 (as stated) fails: of the two artwork rows of game 5, the one of
    type ['cover'] is not returned and the one of type ['boxart'], a type
    outside cover and screenshot, is. *)
Lemma artwork_cover_counterexample :
  get_artwork_urls (downloader_with_artwork [cover_row; boxart_row]) 5
  = [filename_type boxart_row]
  /\ art_type cover_row = lit "cover"
  /\ ~ In (filename_type cover_row)
       (get_artwork_urls (downloader_with_artwork [cover_row; boxart_row]) 5)
  /\ url_type (filename_type boxart_row) <> lit "cover"
  /\ url_type (filename_type boxart_row) <> lit "screenshot".
Proof.
  split; [vm_compute; reflexivity|].
  split; [reflexivity|].
  split; [vm_compute; intros [H|[]]; discriminate H|].
  split; vm_compute; discriminate.
Qed.

(** ** The file system under [download_artwork_parallel] *)

Lemma path_exists_lookup (fs : FS) (p : PurePath) :
  path_exists fs p = true ->
  parts p = [] \/ exists n, fs !! p = Some n.
Proof.
  unfold path_exists, lookup_node.
  destruct (parts p); [now left|].
  destruct (fs !! p) as [n|]; [right; now exists n | discriminate].
Qed.

Lemma mkdir_go_keeps (fs : FS) (abs : bool) (above todo : list str)
    (p : PurePath) (n : node) :
  fs !! p = Some n -> fst (mkdir_go fs abs above todo) !! p = Some n.
Proof.
  revert fs above. induction todo as [|d todo IH]; intros fs above H.
  - exact H.
  - cbn [mkdir_go].
    destruct (fs !! {| is_abs := abs; parts := above ++ [d] |})
      as [[|c]|] eqn:E.
    + now apply IH.
    + exact H.
    + apply IH. rewrite lookup_insert_ne; [exact H|].
      intros <-. congruence.
Qed.

Lemma mkdir_go_adds_dirs (fs : FS) (abs : bool) (above todo : list str)
    (p : PurePath) (n : node) :
  fst (mkdir_go fs abs above todo) !! p = Some n ->
  fs !! p = Some n \/ (n = Dir /\ parts p <> []).
Proof.
  revert fs above. induction todo as [|d todo IH]; intros fs above H.
  - now left.
  - cbn [mkdir_go] in H.
    destruct (fs !! {| is_abs := abs; parts := above ++ [d] |})
      as [[|c]|] eqn:E.
    + now apply IH in H.
    + now left.
    + apply IH in H as [H|H]; [|now right].
      destruct (decide ({| is_abs := abs; parts := above ++ [d] |} = p))
        as [<-|Hne].
      * rewrite lookup_insert_eq in H. injection H as <-. right.
        split; [reflexivity|]. cbn. now destruct above.
      * rewrite lookup_insert_ne in H by exact Hne. now left.
Qed.

Lemma lookup_node_mkdir (fs : FS) (q p : PurePath) :
  path_exists fs p = true ->
  lookup_node (fst (mkdir_parents fs q)) p = lookup_node fs p.
Proof.
  intros H. unfold lookup_node in *. unfold path_exists, lookup_node in H.
  destruct (parts p); [reflexivity|].
  destruct (fs !! p) as [n|] eqn:E; [|discriminate].
  unfold mkdir_parents. now apply mkdir_go_keeps.
Qed.

Lemma write_file_other (fs : FS) (q p : PurePath) (data : list N) :
  q <> p -> fst (write_file fs q data) !! p = fs !! p.
Proof.
  intros H. unfold write_file.
  destruct (path_is_dir fs q || negb (path_is_dir fs (parent q)));
    [reflexivity|].
  cbn [fst]. now rewrite lookup_insert_ne.
Qed.

Lemma write_file_empty_parts (fs : FS) (q : PurePath) (data : list N) :
  parts q = [] -> fst (write_file fs q data) = fs.
Proof.
  intros H. unfold write_file, path_is_dir, lookup_node. now rewrite H.
Qed.

Lemma prepare_tasks_In (fs : FS) (base_path : PurePath) (safe_title : str)
    (artwork_urls : list UrlRow) (url : str) (q : PurePath) :
  In (url, q) (prepare_tasks fs base_path safe_title artwork_urls) <->
  exists row, In row artwork_urls
    /\ url = GAMESDB_CDN ++ lit "images/original/" ++ url_filename row
    /\ q = output_path_of base_path safe_title row
    /\ path_exists fs q = false.
Proof.
  unfold prepare_tasks. rewrite in_flat_map. split.
  - intros (row & Hrow & H). exists row.
    destruct (path_exists fs (output_path_of base_path safe_title row)) eqn:E;
      cbn [negb] in H; [destruct H|].
    destruct H as [H|[]]. injection H as <- <-. now repeat split.
  - intros (row & Hrow & -> & -> & E). exists row. split; [exact Hrow|].
    rewrite E. now left.
Qed.

Lemma lookup_node_same (fs fs' : FS) (p : PurePath) :
  fs' !! p = fs !! p -> lookup_node fs' p = lookup_node fs p.
Proof. intros H. unfold lookup_node. now rewrite H. Qed.








Section DownloadFacts.

Variable http_get : nat -> str -> option (list N).
Variable schedule : list (str * PurePath) -> list (str * PurePath).

Lemma download_file_other (k : nat) (fs : FS) (url : str) (q p : PurePath) :
  q <> p -> fst (download_file http_get k fs url q) !! p = fs !! p.
Proof.
  intros H. unfold download_file.
  destruct (http_get k url); [now apply write_file_other | reflexivity].
Qed.

Lemma run_tasks_from_other (k : nat) (fs : FS)
    (tasks : list (str * PurePath)) (p : PurePath) :
  (forall t, In t tasks -> snd t <> p) ->
  run_tasks_from http_get k fs tasks !! p = fs !! p.
Proof.
  revert k fs. induction tasks as [|t ts IH]; intros k fs H; [reflexivity|].
  cbn [run_tasks_from].
  rewrite IH by (intros t' Ht'; apply H; now right).
  apply download_file_other. apply H. now left.
Qed.


(** C9: a path that exists before [download_artwork_parallel] is called
    is not among the paths of the download tasks, and names the same
    thing with the same contents after the call; so only paths that did
    not exist are written. *)
Theorem existing_paths_untouched (fs : FS)
    (system_name original_filename game_title : str)
    (artwork_urls : list UrlRow) (max_workers : nat) (p : PurePath) :
  (forall l, Permutation (schedule l) l) ->
  path_exists fs p = true ->
  ~ In p (List.map snd
            (prepare_tasks
               (fst (mkdir_parents fs (base_path_of system_name)))
               (base_path_of system_name)
               (fst (splitext original_filename)) artwork_urls))
  /\ lookup_node
       (fst (download_artwork_parallel http_get schedule fs system_name
               original_filename game_title artwork_urls max_workers)) p
     = lookup_node fs p.
Proof.
  intros Hsched Hex.
  pose proof (lookup_node_mkdir fs (base_path_of system_name) p Hex) as Hmk.
  assert (Hex1 : path_exists
                   (fst (mkdir_parents fs (base_path_of system_name))) p
                 = true).
  { unfold path_exists in *. now rewrite Hmk. }
  assert (Hnot : ~ In p (List.map snd
            (prepare_tasks
               (fst (mkdir_parents fs (base_path_of system_name)))
               (base_path_of system_name)
               (fst (splitext original_filename)) artwork_urls))).
  { intros H. apply in_map_iff in H as ([u q] & Hq & H).
    cbn [snd] in Hq. subst q.
    apply prepare_tasks_In in H as (row & _ & _ & _ & E). congruence. }
  split; [exact Hnot|].
  unfold download_artwork_parallel. cbv zeta.
  destruct (mkdir_parents fs (base_path_of system_name)) as [fs1 ok] eqn:E.
  cbn [fst] in *.
  destruct ok; [|exact Hmk].
  destruct (prepare_tasks fs1 (base_path_of system_name)
              (fst (splitext original_filename)) artwork_urls)
    as [|t ts] eqn:T; [exact Hmk|].
  cbn [fst]. rewrite <- Hmk. apply lookup_node_same.
  apply run_tasks_from_other. intros t' Ht' <-.
  apply Hnot. apply in_map. apply (Permutation_in _ (Hsched _)). exact Ht'.
Qed.


End DownloadFacts.

Lemma existing_paths_untouched_witness :
  ~ In mario_cover_path
      (List.map snd
         (prepare_tasks
            (fst (mkdir_parents fs_with_cover (base_path_of (lit "NES"))))
            (base_path_of (lit "NES")) (fst (splitext mario_file))
            [filename_type boxart_row]))
  /\ lookup_node
       (fst (download_artwork_parallel sample_http in_order fs_with_cover
               (lit "NES") mario_file (lit "Super Mario Bros.")
               [filename_type boxart_row] 4)) mario_cover_path
     = lookup_node fs_with_cover mario_cover_path.
Proof.
  apply (existing_paths_untouched sample_http in_order fs_with_cover
           (lit "NES") mario_file (lit "Super Mario Bros.")
           [filename_type boxart_row] 4 mario_cover_path).
  - intros l. reflexivity.
  - vm_compute. reflexivity.
Defined.



(** ** Import *)

Section JoinTable.

Context {A B : Type} `{EqDecision A} `{EqDecision B}.






Lemma safe_insert_many_app (t d1 d2 : list (option A * option B)) :
  safe_insert_many t (d1 ++ d2)
  = safe_insert_many (safe_insert_many t d1) d2.
Proof. unfold safe_insert_many. apply fold_left_app. Qed.



End JoinTable.

Section ImportJoinTables.

Context {A B : Type} `{EqDecision A} `{EqDecision B}.

(** A join table of the database and the rows one game contributes. *)
Variable table : Database -> list (option A * option B).
Variable rows : GameJ -> list (option A * option B).

Lemma fold_import_game_table (gs : list GameJ) (db : Database) :
  (forall db g, table (import_game db g)
                = safe_insert_many (table db) (rows g)) ->
  table (fold_left import_game gs db)
  = safe_insert_many (table db) (flat_map rows gs).
Proof.
  intros Hstep. revert db. induction gs as [|g gs IH]; intros db;
    [reflexivity|].
  cbn [fold_left flat_map].
  now rewrite IH, Hstep, safe_insert_many_app.
Qed.

Lemma import_data_table (db : Database) (data : Dump) :
  (forall db g, table (import_game db g)
                = safe_insert_many (table db) (rows g)) ->
  (forall db l, table (import_platforms db l) = table db) ->
  (forall db l, table (import_artwork db l) = table db) ->
  table (import_data db data)
  = safe_insert_many (table db) (flat_map rows (data_games data)).
Proof.
  intros Hstep Hp Ha. unfold import_data.
  destruct (include_boxart data); [rewrite Ha|];
    rewrite fold_import_game_table by exact Hstep;
    destruct (include_platform data); now rewrite ?Hp.
Qed.


End ImportJoinTables.




(** C8, the defect: [game_artwork] has no key but the row id SQLite
    assigns, so [INSERT OR REPLACE] never replaces: importing the sample
    dump twice leaves two artwork rows where one import leaves one. *)
Theorem import_twice_duplicates_artwork :
  length (game_artwork (import_data empty_database sample_dump)) = 1%nat
  /\ length (game_artwork
               (import_data (import_data empty_database sample_dump)
                  sample_dump)) = 2%nat
  /\ List.map filename_type
       (game_artwork
          (import_data (import_data empty_database sample_dump) sample_dump))
     = [ {| url_filename := lit "boxart/front/1-1.jpg";
            url_type := lit "boxart" |};
         {| url_filename := lit "boxart/front/1-1.jpg";
            url_type := lit "boxart" |} ]
  /\ game_developers
       (import_data (import_data empty_database sample_dump) sample_dump)
     = game_developers (import_data empty_database sample_dump).
Proof. repeat split; vm_compute; reflexivity. Qed.

(** ** The shape of a normalised name *)

Lemma split_go_words (s word : str) :
  forallb (fun c => negb (is_space c)) word = true ->
  Forall (fun w => w <> [] /\ forallb (fun c => negb (is_space c)) w = true)
    (split_go word s).
Proof.
  revert word. induction s as [|c t IH]; intros word Hw.
  - cbn [split_go]. destruct word; [constructor|].
    constructor; [|constructor]. split; [discriminate | exact Hw].
  - cbn [split_go]. destruct (is_space c) eqn:E.
    + destruct word as [|x word'].
      * now apply IH.
      * constructor; [split; [discriminate | exact Hw]|]. now apply IH.
    + apply IH. rewrite forallb_app, Hw. cbn. now rewrite E.
Qed.

Lemma ends_with_space_app (a b : str) :
  b <> [] -> ends_with_space (a ++ b) = ends_with_space b.
Proof.
  intros Hb. induction a as [|x a IH]; [reflexivity|].
  cbn [app]. rewrite ends_with_space_cons; [exact IH|].
  destruct a; [exact Hb | discriminate].
Qed.

Lemma ends_with_space_word (w : str) :
  w <> [] -> forallb (fun c => negb (is_space c)) w = true ->
  ends_with_space w = false.
Proof.
  intros Hne Hw. unfold ends_with_space.
  destruct (rev w) as [|c r] eqn:E.
  - reflexivity.
  - assert (Hc : In c w) by (apply in_rev; rewrite E; now left).
    rewrite forallb_forall in Hw. specialize (Hw c Hc).
    now apply negb_true_iff in Hw.
Qed.

Lemma join_ends (sep : str) (words : list str) :
  Forall (fun w => w <> [] /\ forallb (fun c => negb (is_space c)) w = true)
    words ->
  ends_with_space (join sep words) = false.
Proof.
  induction 1 as [|w r [Hne Hw] Hr IH]; [reflexivity|].
  cbn [join]. destruct r as [|w' r'].
  - now apply ends_with_space_word.
  - rewrite app_assoc, ends_with_space_app; [exact IH|].
    inversion Hr as [|? ? [Hne' _] _]; subst.
    cbn [join]. destruct r'; [exact Hne'|].
    destruct w'; [contradiction | discriminate].
Qed.

Lemma lstrip_fixed (s : str) :
  match s with [] => True | c :: _ => is_space c = false end ->
  lstrip s = s.
Proof. destruct s as [|c t]; [reflexivity|]. cbn [lstrip]. now intros ->. Qed.

Lemma strip_join (words : list str) :
  Forall (fun w => w <> [] /\ forallb (fun c => negb (is_space c)) w = true)
    words ->
  strip (join (lit " ") words) = join (lit " ") words.
Proof.
  intros H. unfold strip.
  assert (H1 : lstrip (join (lit " ") words) = join (lit " ") words).
  { apply lstrip_fixed. destruct H as [|w r [Hne Hw] Hr]; [exact I|].
    destruct w as [|c w']; [contradiction|].
    cbn [forallb] in Hw. apply andb_true_iff in Hw as [Hc _].
    apply negb_true_iff in Hc.
    cbn [join]. now destruct r. }
  rewrite H1.
  pose proof (join_ends (lit " ") words H) as He. unfold ends_with_space in He.
  rewrite lstrip_fixed; [apply rev_involutive|].
  destruct (rev (join (lit " ") words)); [exact I | exact He].
Qed.

(** X1: a normalised name is a sequence of words joined by single
    spaces, each word non-empty and free of white space and of
    underscores; so it has no leading, trailing or repeated white space. *)
Theorem clean_game_name_words (self : ROMDownloader) (name : str) :
  exists words : list str,
    clean_game_name self name = join (lit " ") words
    /\ Forall (fun w => w <> []
                 /\ forall c, In c w -> is_space c = false /\ c <> 95)
         words.
Proof.
  set (s := remove_suffixes suffixes (before_suffix_removal name)).
  assert (Hw : Forall (fun w => w <> []
                 /\ forallb (fun c => negb (is_space c)) w = true)
                 (split_ws s))
    by (apply split_go_words; reflexivity).
  exists (split_ws s). split.
  - unfold clean_game_name, clean_game_name_with, finish_with. cbv zeta.
    fold (before_suffix_removal name). fold s. now apply strip_join.
  - rewrite List.Forall_forall in Hw. apply List.Forall_forall.
    intros w Hin. destruct (Hw w Hin) as [Hne Hsp]. split; [exact Hne|].
    intros c Hc. split.
    + rewrite forallb_forall in Hsp. apply negb_true_iff. exact (Hsp c Hc).
    + intros ->. destruct (split_go_In _ _ _ _ Hin Hc) as [[]|H].
      apply remove_suffixes_In in H.
      exact (before_suffix_removal_no_underscore name H).
Qed.

(** ** The resolver on names with wildcards and on empty names *)

(** X2: for a name (also one with [%] in it) and titles that SQLite reads
    to their end (no U+0000, no lone surrogate) and a pattern within the
    50000 bytes SQLite accepts, when some row of the platform has a title
    that contains the normalised name up to ASCII case,
    [find_game_in_db] returns a row: the fallback query never misses a
    title that contains the name. *)
Theorem find_game_in_db_finds_containing (self : ROMDownloader)
    (game_name : str) (system_id : Z) (g : GameRow) :
  sql_text (clean_game_name self game_name) ->
  like_pattern_fits (clean_game_name self game_name) ->
  (forall x, In x (games (db_conn self)) -> sql_text (game_title x)) ->
  In g (games (db_conn self)) ->
  platform g = Some system_id ->
  contains (sql_lower (clean_game_name self game_name))
    (sql_lower (game_title g)) = true ->
  exists g', In g' (games (db_conn self))
    /\ platform g' = Some system_id
    /\ find_game_in_db self game_name system_id
       = Some (game_id g', game_title g').
Proof.
  intros _ _ _ Hg Hp Hc.
  pose proof (find_game_in_db_like self game_name system_id) as H.
  destruct (find_game_in_db self game_name system_id) as [r|].
  - destruct H as (g' & Hg' & -> & Hp' & _). exists g'.
    split; [exact Hg'|]. split; [exact Hp' | reflexivity].
  - destruct (H g Hg Hp) as [_ Hl].
    unfold like_title in Hl. rewrite contains_like in Hl by exact Hc.
    discriminate.
Qed.

Lemma find_game_in_db_finds_containing_witness :
  exists g', In g' [mk_game 1 (lit "100% Orange Juice") 1]
    /\ platform g' = Some 1%Z
    /\ find_game_in_db
         (downloader_with_games [mk_game 1 (lit "100% Orange Juice") 1])
         (lit "100%_Orange.zip") 1
       = Some (game_id g', game_title g').
Proof.
  apply (find_game_in_db_finds_containing
           (downloader_with_games [mk_game 1 (lit "100% Orange Juice") 1])
           (lit "100%_Orange.zip") 1
           (mk_game 1 (lit "100% Orange Juice") 1)).
  - vm_compute. reflexivity.
  - vm_compute. reflexivity.
  - intros x [<-|[]]. vm_compute. reflexivity.
  - left. reflexivity.
  - reflexivity.
  - vm_compute. reflexivity.
Defined.

Lemma like_everything (text : str) : like (sql_lower [37; 37]) text = true.
Proof.
  change (sql_lower [37; 37]) with [37; 37].
  rewrite like_percent, like_percent_nil. reflexivity.
Qed.

(** X3: a file name that normalises to the empty string (such as
    ["(USA).zip"]) is resolved to the first row of the platform in scan
    order, provided no row of the platform has an empty title: the
    pattern of the fallback query is then [%%], which every title
    matches. *)
Theorem empty_name_matches_first_game (self : ROMDownloader)
    (game_name : str) (system_id : Z) (pre post : list GameRow)
    (g : GameRow) :
  clean_game_name self game_name = [] ->
  games (db_conn self) = pre ++ g :: post ->
  (forall x, In x pre -> platform x <> Some system_id) ->
  platform g = Some system_id ->
  (forall x, In x (games (db_conn self)) -> platform x = Some system_id ->
             game_title x <> []) ->
  find_game_in_db self game_name system_id = Some (game_id g, game_title g).
Proof.
  intros Hclean Hrows Hpre Hg Htitles.
  unfold find_game_in_db, fetchone. cbv zeta. rewrite Hclean.
  assert (E1 : find (fun x => on_platform system_id x && exact_title [] x)
                 (games (db_conn self)) = None).
  { destruct (find _ (games (db_conn self))) as [x|] eqn:E; [|reflexivity].
    apply find_some in E as [Hx Hc]. apply andb_true_iff in Hc as [Hp He].
    apply on_platform_true in Hp. apply exact_title_true in He.
    exfalso. apply (Htitles x Hx Hp).
    destruct (game_title x); [reflexivity | discriminate He]. }
  rewrite E1, Hrows.
  rewrite (find_first _ pre post g); [reflexivity | |].
  - intros x Hx. apply andb_false_iff. left.
    apply not_true_is_false. intros E. apply on_platform_true in E.
    exact (Hpre x Hx E).
  - apply andb_true_iff. split; [now apply on_platform_true|].
    unfold like_title. cbn [app]. apply like_everything.
Qed.

Lemma empty_name_matches_first_game_witness :
  find_game_in_db
    (downloader_with_games
       [mk_game 4 (lit "Sonic") 2; mk_game 9 (lit "Tetris") 1;
        mk_game 10 (lit "Zelda") 1])
    (lit "(USA).zip") 1
  = Some (9%Z, lit "Tetris").
Proof.
  apply (empty_name_matches_first_game
           (downloader_with_games
              [mk_game 4 (lit "Sonic") 2; mk_game 9 (lit "Tetris") 1;
               mk_game 10 (lit "Zelda") 1])
           (lit "(USA).zip") 1 [mk_game 4 (lit "Sonic") 2]
           [mk_game 10 (lit "Zelda") 1] (mk_game 9 (lit "Tetris") 1)).
  - vm_compute. reflexivity.
  - reflexivity.
  - intros x [<-|[]]. discriminate.
  - reflexivity.
  - intros x [<-|[<-|[<-|[]]]] _; discriminate.
Defined.

(** ** More on platform name resolution *)

Lemma direct_match_iff (system_name : str) (d : SystemRow) :
  direct_match system_name d = true <-> direct_matches system_name d.
Proof.
  unfold direct_match, direct_matches.
  rewrite orb_true_iff, str_eqb_eq. split.
  - intros [H|H]; [now left|]. right.
    destruct (sys_alias d) as [a|]; [|discriminate].
    apply str_eqb_eq in H. now subst.
  - intros [H|H]; [now left|]. right. rewrite H. now apply str_eqb_eq.
Qed.

Section SystemMappingMore.

Variable get_close_matches : str -> list str -> list str.
Variable db_systems : list SystemRow.

Lemma map_system_stored (n : str) (i : Z) :
  map_system get_close_matches db_systems n = Some i ->
  exists d, In d db_systems /\ sys_id d = i.
Proof.
  assert (F : forall (f : SystemRow -> bool) o,
             option_map sys_id (find f db_systems) = o -> o = Some i ->
             exists d, In d db_systems /\ sys_id d = i).
  { intros f o E Ho. subst o.
    destruct (find f db_systems) as [d|] eqn:Ef; [|discriminate Ho].
    apply find_some in Ef as [Hd _]. injection Ho as Ei.
    exists d. split; [exact Hd | exact Ei]. }
  unfold map_system, match_by_variations.
  generalize (name_variations !! n). intros o H.
  set (fuzzy := match get_close_matches (lower n)
                        (List.map (fun s => lower (sys_name s)) db_systems)
                with
                | [] => None
                | m :: _ =>
                    option_map sys_id
                      (find (fun d => str_eqb (lower (sys_name d)) m)
                         db_systems)
                end) in H.
  assert (Hf : fuzzy = Some i -> exists d, In d db_systems /\ sys_id d = i).
  { unfold fuzzy. destruct (get_close_matches _ _) as [|m ms];
      [discriminate|]. intros E. exact (F _ _ eq_refl E). }
  clearbody fuzzy.
  assert (Hb : match find (direct_match n) db_systems with
               | Some d => Some (sys_id d)
               | None => fuzzy
               end = Some i ->
               exists d, In d db_systems /\ sys_id d = i).
  { destruct (find (direct_match n) db_systems) as [d|] eqn:E2;
      [|exact Hf].
    apply find_some in E2 as [Hd _]. intros E. injection E as Ei.
    exists d. split; [exact Hd | exact Ei]. }
  destruct o as [vs|]; [|exact (Hb H)].
  destruct (find (variation_match vs) db_systems) as [d|] eqn:E1;
    [|exact (Hb H)].
  apply find_some in E1 as [Hd _]. injection H as Hi.
  exists d. split; [exact Hd | exact Hi].
Qed.

(** X4: whatever the similarity search returns, every key of the mapping
    is the name of a system of [cores_data] and every value is the id of a
    row of the [systems] table. *)
Theorem get_system_mapping_sound (cores : list CoreSystem) (n : str)
    (i : Z) :
  get_system_mapping get_close_matches db_systems cores !! n = Some i ->
  (exists system, In system cores /\ core_name system = n)
  /\ (exists d, In d db_systems /\ sys_id d = i).
Proof.
  rewrite get_system_mapping_lookup.
  destruct (existsb _ cores) eqn:E; [|discriminate].
  intros H. split; [|exact (map_system_stored n i H)].
  apply existsb_exists in E as (system & Hin & Hn).
  apply str_eqb_eq in Hn. exists system. split; [exact Hin | exact Hn].
Qed.

(** X5: when no stored system passes the test on the known aliases, the
    first stored system whose name equals the system name up to case, or
    whose alias is the lower-cased system name, is the one the name is
    mapped to; the similarity search is not consulted.  The system name
    and the stored names are in the range U+0000 to U+00FF, in which the
    case folding is the one modelled. *)
Theorem first_direct_match_wins (cores : list CoreSystem)
    (system : CoreSystem) (pre post : list SystemRow) (d : SystemRow) :
  latin1 (core_name system) ->
  (forall x, In x db_systems -> latin1 (sys_name x)) ->
  In system cores ->
  (forall variations x,
      name_variations !! core_name system = Some variations ->
      In x db_systems -> ~ variation_matches variations x) ->
  db_systems = pre ++ d :: post ->
  (forall x, In x pre -> ~ direct_matches (core_name system) x) ->
  direct_matches (core_name system) d ->
  get_system_mapping get_close_matches db_systems cores
    !! core_name system = Some (sys_id d).
Proof.
  intros _ _ Hin Hvar Hdb Hpre Hd.
  rewrite get_system_mapping_lookup.
  replace (existsb (fun s => str_eqb (core_name s) (core_name system)) cores)
    with true
    by (symmetry; apply existsb_exists; exists system;
        split; [exact Hin | now apply str_eqb_eq]).
  unfold map_system, match_by_variations.
  assert (Hb : find (direct_match (core_name system)) db_systems = Some d).
  { rewrite Hdb. apply find_first.
    - intros x Hx. apply not_true_is_false. intros E.
      apply direct_match_iff in E. exact (Hpre x Hx E).
    - now apply direct_match_iff. }
  destruct (name_variations !! core_name system) as [vs|] eqn:Ev.
  - destruct (find (variation_match vs) db_systems) as [x|] eqn:E1.
    + apply find_some in E1 as [Hx Hm]. apply variation_match_iff in Hm.
      now destruct (Hvar vs x eq_refl Hx).
    + now rewrite Hb.
  - now rewrite Hb.
Qed.

(** X6: a system name that passes neither loop and for which the
    similarity search returns nothing is left out of the mapping.  The
    system name and the stored names are in the range U+0000 to U+00FF,
    in which the case folding is the one modelled. *)
Theorem unmatched_system_unmapped (cores : list CoreSystem) (n : str) :
  latin1 n ->
  (forall x, In x db_systems -> latin1 (sys_name x)) ->
  (forall variations x,
      name_variations !! n = Some variations ->
      In x db_systems -> ~ variation_matches variations x) ->
  (forall x, In x db_systems -> ~ direct_matches n x) ->
  get_close_matches (lower n)
    (List.map (fun s => lower (sys_name s)) db_systems) = [] ->
  get_system_mapping get_close_matches db_systems cores !! n = None.
Proof.
  intros _ _ Hvar Hdir Hgcm.
  rewrite get_system_mapping_lookup.
  destruct (existsb _ cores); [|reflexivity].
  unfold map_system, match_by_variations.
  assert (Hb : find (direct_match n) db_systems = None).
  { destruct (find (direct_match n) db_systems) as [x|] eqn:E; [|reflexivity].
    apply find_some in E as [Hx Hm]. apply direct_match_iff in Hm.
    now destruct (Hdir x Hx). }
  destruct (name_variations !! n) as [vs|] eqn:Ev.
  - destruct (find (variation_match vs) db_systems) as [x|] eqn:E1.
    + apply find_some in E1 as [Hx Hm]. apply variation_match_iff in Hm.
      now destruct (Hvar vs x eq_refl Hx).
    + now rewrite Hb, Hgcm.
  - now rewrite Hb, Hgcm.
Qed.

End SystemMappingMore.

Lemma get_system_mapping_sound_witness :
  (exists system, In system [nes_core] /\ core_name system = nes_name)
  /\ (exists d, In d [atari_system; nes_system] /\ sys_id d = 7%Z).
Proof.
  apply (get_system_mapping_sound no_close_matches
           [atari_system; nes_system] [nes_core] nes_name 7).
  vm_compute. reflexivity.
Defined.

Lemma first_direct_match_wins_witness :
  get_system_mapping no_close_matches [nes_system; atari_system]
    [atari_core] !! core_name atari_core = Some (sys_id atari_system).
Proof.
  apply (first_direct_match_wins no_close_matches
           [nes_system; atari_system] [atari_core] atari_core
           [nes_system] [] atari_system).
  - vm_compute. reflexivity.
  - intros x [<-|[<-|[]]]; vm_compute; reflexivity.
  - left. reflexivity.
  - intros vs x Hv. vm_compute in Hv. discriminate Hv.
  - reflexivity.
  - intros x [<-|[]] H. apply direct_match_iff in H.
    vm_compute in H. discriminate H.
  - apply direct_match_iff. vm_compute. reflexivity.
Defined.

Lemma unmatched_system_unmapped_witness :
  get_system_mapping no_close_matches [famicom_system] [nes_core] !! nes_name
  = None.
Proof.
  apply (unmatched_system_unmapped no_close_matches [famicom_system]
           [nes_core] nes_name).
  - vm_compute. reflexivity.
  - intros x [<-|[]]. vm_compute. reflexivity.
  - intros vs x Hv [<-|[]] Hm. vm_compute in Hv. injection Hv as <-.
    apply variation_match_iff in Hm. vm_compute in Hm. discriminate Hm.
  - intros x [<-|[]] Hm. apply direct_match_iff in Hm.
    vm_compute in Hm. discriminate Hm.
  - reflexivity.
Defined.

(** ** The order of the artwork rows *)

Lemma str_compare_antisym (a b : str) :
  str_compare b a = CompOpp (str_compare a b).
Proof.
  revert b. induction a as [|x a IH]; intros [|y b]; try reflexivity.
  cbn [str_compare]. rewrite (N.compare_antisym x y).
  destruct (x ?= y); cbn [CompOpp]; [apply IH | reflexivity | reflexivity].
Qed.

Lemma art_leb_total (a b : ArtworkRow) :
  art_leb a b = false -> art_leb b a = true.
Proof.
  unfold art_leb. rewrite (str_compare_antisym (art_type a) (art_type b)).
  destruct (str_compare (art_type a) (art_type b)); cbn [CompOpp];
    try (intros; reflexivity); try discriminate.
  intros H. apply Z.leb_gt in H. apply Z.leb_le. lia.
Qed.

Lemma insert_sorted_HdRel (a x : ArtworkRow) (l : list ArtworkRow) :
  art_le x a -> HdRel art_le x l -> HdRel art_le x (insert_sorted a l).
Proof.
  intros Hxa Hx. destruct l as [|b l]; cbn [insert_sorted].
  - constructor. exact Hxa.
  - destruct (art_leb a b); constructor; [exact Hxa|].
    inversion Hx; assumption.
Qed.

Lemma insert_sorted_Sorted (a : ArtworkRow) (l : list ArtworkRow) :
  Sorted art_le l -> Sorted art_le (insert_sorted a l).
Proof.
  induction 1 as [|b l Hs IH Hb]; cbn [insert_sorted].
  - repeat constructor.
  - destruct (art_leb a b) eqn:E.
    + constructor; [constructor; assumption | constructor; exact E].
    + constructor; [exact IH|].
      apply insert_sorted_HdRel; [|exact Hb].
      now apply art_leb_total.
Qed.

Lemma order_by_type_id_Sorted (l : list ArtworkRow) :
  Sorted art_le (order_by_type_id l).
Proof.
  unfold order_by_type_id. induction l as [|a l IH]; cbn [fold_right].
  - constructor.
  - now apply insert_sorted_Sorted.
Qed.

Lemma sorted_types_shape (l : list ArtworkRow) :
  Sorted art_le l ->
  (forall a, In a l ->
             art_type a = lit "boxart" \/ art_type a = lit "screenshot") ->
  exists n m,
    List.map art_type l
    = repeat (lit "boxart") n ++ repeat (lit "screenshot") m.
Proof.
  induction 1 as [|a l Hs IH Ha]; intros Ht.
  - exists 0%nat, 0%nat. reflexivity.
  - destruct IH as (n & m & E); [intros x Hx; apply Ht; now right|].
    destruct (Ht a (or_introl eq_refl)) as [Hb|Hsc].
    + exists (S n), m. cbn [List.map repeat app]. now rewrite Hb, E.
    + destruct l as [|b l'].
      * exists 0%nat, 1%nat. cbn. now rewrite Hsc.
      * inversion Ha as [|? ? Hab]; subst. unfold art_le, art_leb in Hab.
        destruct (Ht b (or_intror (or_introl eq_refl))) as [Hbb|Hbs].
        -- rewrite Hsc, Hbb in Hab. vm_compute in Hab. discriminate Hab.
        -- destruct n as [|n'].
           ++ exists 0%nat, (S m). cbn [List.map repeat app] in *.
              now rewrite Hsc, E.
           ++ cbn [List.map repeat app] in E. injection E as E1 _.
              rewrite Hbs in E1. vm_compute in E1. discriminate E1.
Qed.

(** X7: the rows [get_artwork_urls] returns are in the order of [ORDER BY
    type, id]: they are the projections of the wanted rows sorted by type
    and then id, so every box-art row comes before every screenshot
    row. *)
Theorem get_artwork_urls_ordered (self : ROMDownloader) (game : Z) :
  (exists rows,
      get_artwork_urls self game = List.map filename_type rows
      /\ Sorted art_le rows
      /\ Permutation rows
           (List.filter (artwork_wanted game) (game_artwork (db_conn self))))
  /\ (exists n m,
         List.map url_type (get_artwork_urls self game)
         = repeat (lit "boxart") n ++ repeat (lit "screenshot") m).
Proof.
  set (rows := order_by_type_id
                 (List.filter (artwork_wanted game)
                    (game_artwork (db_conn self)))).
  assert (Hs : Sorted art_le rows) by apply order_by_type_id_Sorted.
  assert (Hp : Permutation rows
                 (List.filter (artwork_wanted game)
                    (game_artwork (db_conn self))))
    by apply order_by_type_id_perm.
  split.
  - exists rows. split; [reflexivity|]. split; assumption.
  - destruct (sorted_types_shape rows Hs) as (n & m & E).
    + intros a Ha. apply (Permutation_in _ Hp) in Ha.
      apply filter_In in Ha as [_ Hw].
      now apply artwork_wanted_true in Hw as [_ Hw].
    + exists n, m. unfold get_artwork_urls. fold rows.
      rewrite List.map_map. exact E.
Qed.

(** ** What a download leaves behind *)



Lemma mkdir_go_blocked (fs : FS) (abs : bool) (above todo : list str)
    (pre rest : list str) (c : list N) :
  todo = pre ++ rest -> pre <> [] ->
  fs !! {| is_abs := abs; parts := above ++ pre |} = Some (File c) ->
  snd (mkdir_go fs abs above todo) = false.
Proof.
  revert fs above pre. induction todo as [|d todo IH];
    intros fs above pre E Hne Hf.
  - destruct pre; [contradiction | discriminate E].
  - destruct pre as [|x pre]; [contradiction|]. injection E as <- E.
    cbn [mkdir_go].
    destruct pre as [|y pre'].
    + rewrite Hf. reflexivity.
    + assert (Hf' : forall fs0,
                 fs0 !! {| is_abs := abs; parts := above ++ d :: y :: pre' |}
                 = Some (File c) ->
                 snd (mkdir_go fs0 abs (above ++ [d]) todo) = false).
      { intros fs0 H0. apply (IH fs0 (above ++ [d]) (y :: pre') E).
        - discriminate.
        - now rewrite <- app_assoc. }
      destruct (fs !! {| is_abs := abs; parts := above ++ [d] |})
        as [[|c']|] eqn:Ef; [exact (Hf' fs Hf) | reflexivity |].
      apply Hf'. rewrite lookup_insert_ne; [exact Hf|].
      intros Heq. injection Heq as Heq. apply app_inv_head in Heq.
      discriminate Heq.
Qed.




Lemma lookup_node_insert_ne (fs : FS) (p q : PurePath) (n : node) :
  p <> q -> lookup_node (<[p := n]> fs) q = lookup_node fs q.
Proof.
  intros H. unfold lookup_node. destruct (parts q); [reflexivity|].
  now rewrite lookup_insert_ne.
Qed.

Section DownloadComplete.

Variable http_get : nat -> str -> option (list N).
Variable schedule : list (str * PurePath) -> list (str * PurePath).

Lemma download_file_lookup_node (k : nat) (fs : FS) (url : str)
    (p q : PurePath) :
  lookup_node (fst (download_file http_get k fs url p)) q = lookup_node fs q
  \/ (p = q /\ path_is_dir fs q = false
      /\ exists d, fst (download_file http_get k fs url p) !! q
                   = Some (File d)).
Proof.
  unfold download_file. destruct (http_get k url) as [d|]; [|now left].
  unfold write_file.
  destruct (path_is_dir fs p) eqn:Ed; cbn [orb]; [now left|].
  destruct (negb (path_is_dir fs (parent p))); [now left|]. cbn [fst].
  destruct (decide (p = q)) as [<-|Hne].
  - right. split; [reflexivity|]. split; [exact Ed|].
    exists d. apply lookup_insert_eq.
  - left. now apply lookup_node_insert_ne.
Qed.

Lemma download_file_dir_stays (k : nat) (fs : FS) (url : str)
    (p q : PurePath) :
  path_is_dir fs q = true ->
  path_is_dir (fst (download_file http_get k fs url p)) q = true.
Proof.
  intros H.
  destruct (download_file_lookup_node k fs url p q) as [E|(_ & Hn & _)].
  - unfold path_is_dir in *. now rewrite E.
  - congruence.
Qed.




Lemma run_tasks_from_dir_stays (k : nat) (fs : FS)
    (tasks : list (str * PurePath)) (q : PurePath) :
  path_is_dir fs q = true ->
  path_is_dir (run_tasks_from http_get k fs tasks) q = true.
Proof.
  revert k fs. induction tasks as [|t ts IH]; intros k fs H; [exact H|].
  cbn [run_tasks_from]. apply IH. now apply download_file_dir_stays.
Qed.




End DownloadComplete.


Section DownloadOutcome.

Variable http_get : nat -> str -> option (list N).
Variable schedule : list (str * PurePath) -> list (str * PurePath).



(** X10: when a component of the base path [ROMs/<system>] is a file,
    [mkdir] raises: the call does not return and no file is written. *)
Theorem download_blocked_by_file (fs : FS)
    (system_name original_filename game_title : str)
    (artwork_urls : list UrlRow) (max_workers : nat)
    (pre rest : list str) (c : list N) :
  parts (base_path_of system_name) = pre ++ rest ->
  pre <> [] ->
  fs !! {| is_abs := is_abs (base_path_of system_name); parts := pre |}
  = Some (File c) ->
  snd (download_artwork_parallel http_get schedule fs system_name
         original_filename game_title artwork_urls max_workers) = false
  /\ forall p d,
       fst (download_artwork_parallel http_get schedule fs system_name
              original_filename game_title artwork_urls max_workers) !! p
       = Some (File d) ->
       fs !! p = Some (File d).
Proof.
  intros Hparts Hne Hfile.
  pose proof (mkdir_go_blocked fs (is_abs (base_path_of system_name)) []
                (parts (base_path_of system_name)) pre rest c Hparts Hne
                Hfile) as Hb.
  unfold download_artwork_parallel. cbv zeta.
  unfold mkdir_parents.
  destruct (mkdir_go fs (is_abs (base_path_of system_name)) []
              (parts (base_path_of system_name))) as [fs1 ok] eqn:E.
  cbn [snd] in Hb. subst ok. split; [reflexivity|].
  cbn [fst]. intros p d H.
  replace fs1 with (fst (mkdir_go fs (is_abs (base_path_of system_name)) []
                           (parts (base_path_of system_name))))
    in H by now rewrite E.
  apply mkdir_go_adds_dirs in H as [H|[H _]]; [exact H | discriminate H].
Qed.

End DownloadOutcome.



Lemma download_blocked_by_file_witness :
  snd (download_artwork_parallel sample_http in_order fs_roms_is_file
         (lit "NES") mario_file (lit "Super Mario Bros.")
         [filename_type boxart_row] 4) = false
  /\ forall p d,
       fst (download_artwork_parallel sample_http in_order fs_roms_is_file
              (lit "NES") mario_file (lit "Super Mario Bros.")
              [filename_type boxart_row] 4) !! p = Some (File d) ->
       fs_roms_is_file !! p = Some (File d).
Proof.
  apply (download_blocked_by_file sample_http in_order fs_roms_is_file
           (lit "NES") mario_file (lit "Super Mario Bros.")
           [filename_type boxart_row] 4 [lit "ROMs"] [lit "NES"] [0]).
  - vm_compute. reflexivity.
  - discriminate.
  - vm_compute. reflexivity.
Defined.

(** ** The main loop *)

Section RunFacts.

Variable http_get : nat -> nat -> str -> option (list N).
Variable schedule : nat -> list (str * PurePath) -> list (str * PurePath).
Variable self : ROMDownloader.

Lemma download_artwork_parallel_keeps (n : nat) (fs : FS)
    (system_name original_filename game_title : str)
    (artwork_urls : list UrlRow) (max_workers : nat) (p : PurePath) :
  (forall l, Permutation (schedule n l) l) ->
  path_exists fs p = true ->
  lookup_node
    (fst (download_artwork_parallel (http_get n) (schedule n) fs system_name
            original_filename game_title artwork_urls max_workers)) p
  = lookup_node fs p.
Proof.
  intros Hsched Hex.
  pose proof (lookup_node_mkdir fs (base_path_of system_name) p Hex) as Hmk.
  unfold download_artwork_parallel. cbv zeta.
  destruct (mkdir_parents fs (base_path_of system_name)) as [fs1 ok] eqn:E.
  cbn [fst] in *. destruct ok; [|exact Hmk].
  destruct (prepare_tasks fs1 (base_path_of system_name)
              (fst (splitext original_filename)) artwork_urls)
    as [|t ts] eqn:T; [exact Hmk|].
  cbn [fst]. rewrite <- Hmk. apply lookup_node_same.
  apply run_tasks_from_other. intros [u q] Ht Hq. cbn [snd] in Hq. subst q.
  apply (Permutation_in _ (Hsched _)) in Ht. rewrite <- T in Ht.
  apply prepare_tasks_In in Ht as (row & _ & _ & _ & Hne).
  unfold path_exists in *. rewrite Hmk in Hne. congruence.
Qed.


End RunFacts.

Section RunTheorems.

Variable http_get : nat -> nat -> str -> option (list N).
Variable schedule : nat -> list (str * PurePath) -> list (str * PurePath).
Variable self : ROMDownloader.

Lemma path_exists_same (fs fs' : FS) (p : PurePath) :
  lookup_node fs' p = lookup_node fs p -> path_exists fs' p = path_exists fs p.
Proof. intros H. unfold path_exists. now rewrite H. Qed.

Lemma run_child_keeps (system_name : str) (system_id : Z) (n : nat)
    (fs : FS) (child : Child) (p : PurePath) :
  (forall m l, Permutation (schedule m l) l) ->
  path_exists fs p = true ->
  lookup_node
    (fst (run_child http_get schedule self system_name system_id n fs child))
    p = lookup_node fs p.
Proof.
  intros Hsched Hex. unfold run_child.
  destruct (negb (str_eqb (child_type child) (lit "file"))); [reflexivity|].
  destruct (find_game_in_db self (child_name child) system_id) as [game|];
    [|reflexivity].
  destruct (get_artwork_urls self (fst game)) as [|row rows]; [reflexivity|].
  apply download_artwork_parallel_keeps; [apply Hsched | exact Hex].
Qed.

Lemma run_children_keeps (system_name : str) (system_id : Z) (n : nat)
    (fs : FS) (l : list Child) (p : PurePath) :
  (forall m l, Permutation (schedule m l) l) ->
  path_exists fs p = true ->
  lookup_node
    (fst (fst (run_children http_get schedule self system_name system_id n
                 fs l))) p
  = lookup_node fs p.
Proof.
  intros Hsched. revert n fs. induction l as [|child rest IH]; intros n fs Hex;
    [reflexivity|].
  cbn [run_children].
  pose proof (run_child_keeps system_name system_id n fs child p Hsched Hex)
    as Hc.
  destruct (run_child http_get schedule self system_name system_id n fs child)
    as [fs' ok].
  cbn [fst] in Hc. destruct ok; [|exact Hc].
  rewrite IH; [exact Hc|]. rewrite <- Hex. now apply path_exists_same.
Qed.

Lemma run_system_keeps (n : nat) (fs : FS) (system : CoreSystem)
    (p : PurePath) :
  (forall m l, Permutation (schedule m l) l) ->
  path_exists fs p = true ->
  lookup_node (fst (fst (run_system http_get schedule self n fs system))) p
  = lookup_node fs p.
Proof.
  intros Hsched Hex. unfold run_system.
  destruct (usable_id _) as [system_id|]; [|reflexivity].
  destruct (children system) as [l|]; [|reflexivity].
  now apply run_children_keeps.
Qed.

Lemma run_systems_keeps (n : nat) (fs : FS) (l : list CoreSystem)
    (p : PurePath) :
  (forall m l, Permutation (schedule m l) l) ->
  path_exists fs p = true ->
  lookup_node (fst (run_systems http_get schedule self n fs l)) p
  = lookup_node fs p.
Proof.
  intros Hsched. revert n fs. induction l as [|system rest IH];
    intros n fs Hex; [reflexivity|].
  cbn [run_systems].
  pose proof (run_system_keeps n fs system p Hsched Hex) as Hs.
  destruct (run_system http_get schedule self n fs system) as [[fs' n'] ok].
  cbn [fst] in Hs. destruct ok; [|exact Hs].
  rewrite IH; [exact Hs|]. rewrite <- Hex. now apply path_exists_same.
Qed.

(** X11: a whole run never touches what is already there: every path that
    exists before [run] names the same thing with the same contents after
    it, whatever the network answers and in whatever order the pools
    work. *)
Theorem run_keeps_existing (fs : FS) (p : PurePath) :
  (forall m l, Permutation (schedule m l) l) ->
  path_exists fs p = true ->
  lookup_node (fst (run http_get schedule self fs)) p = lookup_node fs p.
Proof. intros Hsched Hex. unfold run. now apply run_systems_keeps. Qed.

End RunTheorems.

Section RunOutcome.

Variable http_get : nat -> nat -> str -> option (list N).
Variable schedule : nat -> list (str * PurePath) -> list (str * PurePath).
Variable self : ROMDownloader.

Lemma run_children_no_files (system_name : str) (system_id : Z) (n : nat)
    (fs : FS) (l : list Child) :
  (forall child, In child l -> child_type child <> lit "file") ->
  exists n', run_children http_get schedule self system_name system_id n fs l
             = (fs, n', true).
Proof.
  revert n. induction l as [|child rest IH]; intros n H.
  - now exists n.
  - cbn [run_children]. unfold run_child.
    assert (E : str_eqb (child_type child) (lit "file") = false)
      by (apply str_eqb_neq, H; now left).
    rewrite E. cbn [negb]. apply IH. intros c Hc. apply H. now right.
Qed.

Lemma run_system_passed_over (n : nat) (fs : FS) (system : CoreSystem) :
  passed_over self system ->
  exists n', run_system http_get schedule self n fs system = (fs, n', true).
Proof.
  unfold run_system. intros [H|[H|[H|(l & H & Hl)]]].
  - rewrite H. now exists n.
  - rewrite H. now exists n.
  - destruct (usable_id _); [|now exists n]. rewrite H. now exists n.
  - destruct (usable_id _) as [system_id|]; [|now exists n]. rewrite H.
    now apply run_children_no_files.
Qed.

(** X12: a system whose name is not in the mapping, or is mapped to id 0
    (which [if not system_id] takes for no mapping), or that has no
    children or no child of type ['file'], is passed over: when all the
    systems are such, [run] returns with the file system as it was. *)
Theorem run_passes_over (fs : FS) :
  (forall system, In system (cores_data self) -> passed_over self system) ->
  run http_get schedule self fs = (fs, true).
Proof.
  unfold run. generalize 0%nat as n.
  induction (cores_data self) as [|system rest IH]; intros n H;
    [reflexivity|].
  cbn [run_systems].
  destruct (run_system_passed_over n fs system (H system (or_introl eq_refl)))
    as [n' ->].
  apply IH. intros s Hs. apply H. now right.
Qed.




End RunOutcome.

Lemma run_keeps_existing_witness :
  lookup_node (fst (run sample_http2 in_order2 downloader_id_three
                      fs_with_cover)) mario_cover_path
  = lookup_node fs_with_cover mario_cover_path.
Proof.
  apply (run_keeps_existing sample_http2 in_order2 downloader_id_three
           fs_with_cover mario_cover_path).
  - intros m l. reflexivity.
  - vm_compute. reflexivity.
Defined.

Lemma run_passes_over_witness :
  run sample_http2 in_order2 downloader_id_zero ∅ = (∅, true).
Proof.
  apply (run_passes_over sample_http2 in_order2 downloader_id_zero ∅).
  intros system [<-|[]]. right. left. vm_compute. reflexivity.
Defined.


(** ** More on the import *)


Section JoinTableKeys.

Context {A B : Type} `{EqDecision A} `{EqDecision B}.

Lemma key_conflict_sym (r x : option A * option B) :
  key_conflict r x = key_conflict x r.
Proof.
  destruct r as [[a|] [b|]], x as [[a'|] [b'|]]; try reflexivity.
  cbn. apply bool_decide_ext. split; intros [-> ->]; now split.
Qed.

Lemma distinct_keys_snoc (t : list (option A * option B))
    (r : option A * option B) :
  distinct_keys t -> existsb (key_conflict r) t = false ->
  distinct_keys (t ++ [r]).
Proof.
  induction t as [|x t IH]; intros Ht Hr.
  - cbn. split; [reflexivity | exact I].
  - cbn [distinct_keys app] in *. destruct Ht as [Hx Ht].
    cbn [existsb] in Hr. apply orb_false_iff in Hr as [Hrx Hr].
    split; [|now apply IH].
    rewrite existsb_app, Hx. cbn [existsb orb].
    now rewrite key_conflict_sym, Hrx.
Qed.

Lemma insert_or_ignore_distinct (r : option A * option B)
    (t : list (option A * option B)) :
  distinct_keys t -> distinct_keys (insert_or_ignore r t).
Proof.
  intros Ht. unfold insert_or_ignore.
  destruct (existsb (key_conflict r) t) eqn:E; [exact Ht|].
  now apply distinct_keys_snoc.
Qed.

Lemma safe_insert_many_distinct (data t : list (option A * option B)) :
  distinct_keys t -> distinct_keys (safe_insert_many t data).
Proof.
  revert t. induction data as [|r data IH]; intros t Ht; [exact Ht|].
  unfold safe_insert_many in *. cbn [fold_left].
  apply IH. now apply insert_or_ignore_distinct.
Qed.

Lemma safe_insert_many_appends (data t : list (option A * option B)) :
  exists new, safe_insert_many t data = t ++ new
    /\ forall r, In r new -> In r data.
Proof.
  revert t. induction data as [|r data IH]; intros t.
  - exists []. split; [now rewrite app_nil_r | intros r []].
  - unfold safe_insert_many in *. cbn [fold_left].
    unfold insert_or_ignore at 2.
    destruct (existsb (key_conflict r) t).
    + destruct (IH t) as (new & E & Hn). exists new.
      split; [exact E | intros x Hx; right; now apply Hn].
    + destruct (IH (t ++ [r])) as (new & E & Hn). exists (r :: new).
      split; [now rewrite E, <- app_assoc|].
      intros x [<-|Hx]; [now left | right; now apply Hn].
Qed.

End JoinTableKeys.

(** X15: the import respects the composite primary keys: a join table in
    which no two rows agree on both key columns (a [NULL] agrees with
    nothing) is still such a table after [import_data], whatever the dump
    holds. *)
Theorem import_keeps_keys_distinct (db : Database) (data : Dump) :
  distinct_keys (game_developers db) ->
  distinct_keys (game_genres db) ->
  distinct_keys (game_publishers db) ->
  distinct_keys (game_alternates db) ->
  distinct_keys (game_developers (import_data db data))
  /\ distinct_keys (game_genres (import_data db data))
  /\ distinct_keys (game_publishers (import_data db data))
  /\ distinct_keys (game_alternates (import_data db data)).
Proof.
  intros Hd Hg Hp Ha.
  rewrite (import_data_table game_developers developer_rows),
    (import_data_table game_genres genre_rows),
    (import_data_table game_publishers publisher_rows),
    (import_data_table game_alternates alternate_rows);
    try reflexivity.
  repeat split; now apply safe_insert_many_distinct.
Qed.

Lemma import_keeps_keys_distinct_witness :
  distinct_keys (game_developers (import_data empty_database sample_dump))
  /\ distinct_keys (game_genres (import_data empty_database sample_dump))
  /\ distinct_keys (game_publishers (import_data empty_database sample_dump))
  /\ distinct_keys (game_alternates (import_data empty_database sample_dump)).
Proof.
  apply (import_keeps_keys_distinct empty_database sample_dump); exact I.
Defined.

(** X16: the import only adds to the join tables: the rows already there
    stay where they are, and every row added to [game_developers] (and
    likewise to the other three tables) is a pair of a game of the dump
    and one of its ids. *)
Theorem import_appends_join_rows (db : Database) (data : Dump) :
  (exists new,
      game_developers (import_data db data) = game_developers db ++ new
      /\ forall r, In r new ->
           exists g, In g (data_games data) /\ In r (developer_rows g))
  /\ (exists new,
         game_genres (import_data db data) = game_genres db ++ new
         /\ forall r, In r new ->
              exists g, In g (data_games data) /\ In r (genre_rows g))
  /\ (exists new,
         game_publishers (import_data db data) = game_publishers db ++ new
         /\ forall r, In r new ->
              exists g, In g (data_games data) /\ In r (publisher_rows g))
  /\ (exists new,
         game_alternates (import_data db data) = game_alternates db ++ new
         /\ forall r, In r new ->
              exists g, In g (data_games data) /\ In r (alternate_rows g)).
Proof.
  rewrite (import_data_table game_developers developer_rows),
    (import_data_table game_genres genre_rows),
    (import_data_table game_publishers publisher_rows),
    (import_data_table game_alternates alternate_rows);
    try reflexivity.
  repeat split.
  - destruct (safe_insert_many_appends
                (flat_map developer_rows (data_games data))
                (game_developers db)) as (new & E & Hn).
    exists new. split; [exact E|]. intros r Hr.
    now apply in_flat_map, Hn.
  - destruct (safe_insert_many_appends
                (flat_map genre_rows (data_games data))
                (game_genres db)) as (new & E & Hn).
    exists new. split; [exact E|]. intros r Hr.
    now apply in_flat_map, Hn.
  - destruct (safe_insert_many_appends
                (flat_map publisher_rows (data_games data))
                (game_publishers db)) as (new & E & Hn).
    exists new. split; [exact E|]. intros r Hr.
    now apply in_flat_map, Hn.
  - destruct (safe_insert_many_appends
                (flat_map alternate_rows (data_games data))
                (game_alternates db)) as (new & E & Hn).
    exists new. split; [exact E|]. intros r Hr.
    now apply in_flat_map, Hn.
Qed.

Lemma fold_left_max_ge (l : list Z) (i : Z) :
  (i <= fold_left Z.max l i)%Z
  /\ forall x, In x l -> (x <= fold_left Z.max l i)%Z.
Proof.
  revert i. induction l as [|y l IH]; intros i.
  - split; [cbn; lia | intros x []].
  - cbn [fold_left]. destruct (IH (Z.max i y)) as [H1 H2]. split; [lia|].
    intros x [<-|Hx]; [lia | now apply H2].
Qed.

Lemma next_rowid_fresh (t : list ArtworkRow) (a : ArtworkRow) :
  In a t -> (art_id a < next_rowid t)%Z.
Proof.
  intros Ha. unfold next_rowid.
  apply (in_map art_id) in Ha.
  destruct (List.map art_id t) as [|i r]; [destruct Ha|].
  destruct (fold_left_max_ge r i) as [H1 H2].
  destruct Ha as [<-|Ha]; [lia | specialize (H2 _ Ha); lia].
Qed.

Lemma insert_artwork_ids (game : Z) (art : ArtJ) (t : list ArtworkRow) :
  List.NoDup (List.map art_id t) ->
  List.NoDup (List.map art_id (insert_artwork game art t)).
Proof.
  intros H. unfold insert_artwork. rewrite List.map_app. cbn [List.map art_id].
  apply List.NoDup_app; [exact H | repeat constructor; intros [] |].
  intros x Hx [<-|[]].
  apply in_map_iff in Hx as (a & Ha & Hin).
  pose proof (next_rowid_fresh t a Hin). lia.
Qed.

Lemma fold_insert_artwork (game : Z) (arts : list ArtJ)
    (t : list ArtworkRow) :
  exists new,
    fold_left (fun t art => insert_artwork game art t) arts t = t ++ new
    /\ List.map art_payload new
       = List.map (fun art => (game, aj_type art, aj_side art,
                               aj_filename art, aj_resolution art)) arts
    /\ (List.NoDup (List.map art_id t) -> List.NoDup (List.map art_id (t ++ new))).
Proof.
  revert t. induction arts as [|art arts IH]; intros t.
  - exists []. rewrite app_nil_r. repeat split; auto.
  - cbn [fold_left].
    destruct (IH (insert_artwork game art t)) as (new & E & Hp & Hn).
    exists ({| art_id := next_rowid t; art_game_id := game;
               art_type := aj_type art; art_side := aj_side art;
               art_filename := aj_filename art;
               art_resolution := aj_resolution art |} :: new).
    split; [|split].
    + rewrite E. unfold insert_artwork. now rewrite <- app_assoc.
    + cbn [List.map]. now rewrite Hp.
    + intros H. apply (insert_artwork_ids game art) in H. apply Hn in H.
      unfold insert_artwork in H. now rewrite <- app_assoc in H.
Qed.

Lemma import_artwork_appends (db : Database) (boxart : list (Z * list ArtJ)) :
  exists new,
    game_artwork (import_artwork db boxart) = game_artwork db ++ new
    /\ List.map art_payload new
       = flat_map
           (fun entry =>
              List.map
                (fun art => (fst entry, aj_type art, aj_side art,
                             aj_filename art, aj_resolution art))
                (snd entry))
           boxart
    /\ (List.NoDup (List.map art_id (game_artwork db)) ->
        List.NoDup (List.map art_id (game_artwork db ++ new))).
Proof.
  unfold import_artwork. cbn [game_artwork].
  generalize (game_artwork db) as t.
  induction boxart as [|entry boxart IH]; intros t.
  - exists []. rewrite app_nil_r. repeat split; auto.
  - cbn [fold_left flat_map].
    destruct (fold_insert_artwork (fst entry) (snd entry) t)
      as (new1 & E1 & Hp1 & Hn1).
    rewrite E1. destruct (IH (t ++ new1)) as (new2 & E2 & Hp2 & Hn2).
    exists (new1 ++ new2). rewrite E2, <- app_assoc.
    split; [reflexivity|]. split.
    + now rewrite List.map_app, Hp1, Hp2.
    + intros H. rewrite app_assoc. auto.
Qed.

Lemma import_data_artwork (db : Database) (data : Dump) :
  game_artwork (import_data db data)
  = match include_boxart data with
    | Some boxart => game_artwork (import_artwork db boxart)
    | None => game_artwork db
    end.
Proof.
  unfold import_data.
  assert (G : forall gs d,
             game_artwork (fold_left import_game gs d) = game_artwork d).
  { induction gs as [|g gs IH]; intros d; [reflexivity|].
    cbn [fold_left]. now rewrite IH. }
  destruct (include_boxart data) as [boxart|];
    destruct (include_platform data) as [pl|]; cbn [game_artwork import_artwork];
    now rewrite ?G.
Qed.

(** X17: every import adds one artwork row for each artwork entry of the
    dump, in the order of the dump, after the rows already there, whether
    or not equal rows are there already; so [n] imports of a dump leave
    [n] copies of its artwork.  The entries hold values SQLite can store
    (game ids of 64 bits, text without U+0000 or lone surrogates) and the
    row ids handed out stay below [2^63]: an entry whose insert raises is
    skipped by the script, and beyond the largest row id SQLite picks ids
    at random. *)
Theorem import_appends_artwork (db : Database) (data : Dump) :
  artwork_fits db data ->
  exists new,
    game_artwork (import_data db data) = game_artwork db ++ new
    /\ List.map art_payload new = dump_artwork data.
Proof.
  intros _. rewrite import_data_artwork. unfold dump_artwork.
  destruct (include_boxart data) as [boxart|].
  - destruct (import_artwork_appends db boxart) as (new & E & Hp & _).
    now exists new.
  - exists []. now rewrite app_nil_r.
Qed.

Lemma import_appends_artwork_witness :
  exists new,
    game_artwork (import_data (import_data empty_database sample_dump)
                    sample_dump)
    = game_artwork (import_data empty_database sample_dump) ++ new
    /\ List.map art_payload new = dump_artwork sample_dump.
Proof.
  apply (import_appends_artwork (import_data empty_database sample_dump)
           sample_dump).
  split; [reflexivity|]. vm_compute. discriminate.
Defined.

(** X18: the row ids SQLite assigns are fresh: when the ids of the artwork
    rows are pairwise distinct before an import, they are after it. *)
Theorem import_keeps_artwork_ids_distinct (db : Database) (data : Dump) :
  List.NoDup (List.map art_id (game_artwork db)) ->
  List.NoDup (List.map art_id (game_artwork (import_data db data))).
Proof.
  intros H. rewrite import_data_artwork.
  destruct (include_boxart data) as [boxart|]; [|exact H].
  destruct (import_artwork_appends db boxart) as (new & E & _ & Hn).
  rewrite E. now apply Hn.
Qed.

Lemma import_keeps_artwork_ids_distinct_witness :
  List.NoDup (List.map art_id
           (game_artwork
              (import_data (import_data empty_database sample_dump)
                 sample_dump))).
Proof.
  apply (import_keeps_artwork_ids_distinct
           (import_data empty_database sample_dump) sample_dump).
  vm_compute. repeat constructor. intros [].
Defined.

Lemma truthy_alternates_spec (l : list (option str)) (seen : list str) :
  (forall a, In a (truthy_alternates seen l) <->
             In (Some a) l /\ a <> [] /\ ~ In a seen)
  /\ List.NoDup (truthy_alternates seen l).
Proof.
  revert seen. induction l as [|o l IH]; intros seen.
  - split; [|constructor]. intros a. cbn. tauto.
  - destruct o as [x|]; cbn [truthy_alternates].
    + destruct (str_eqb x [] || str_in x seen) eqn:E.
      * destruct (IH seen) as [Hin Hnd]. split; [|exact Hnd].
        intros a. rewrite Hin. split; [intros (H1 & H2 & H3); now repeat split;
                                        try right|].
        intros ([H|H] & H2 & H3); [|now repeat split].
        injection H as ->. exfalso.
        apply orb_true_iff in E as [E|E];
          [apply str_eqb_eq in E; contradiction
          | apply str_in_In in E; contradiction].
      * apply orb_false_iff in E as [E1 E2].
        apply str_eqb_neq in E1.
        assert (E3 : ~ In x seen)
          by (intros H; apply str_in_In in H; congruence).
        destruct (IH (x :: seen)) as [Hin Hnd]. split.
        -- intros a. cbn [In]. rewrite Hin. split.
           ++ intros [<-|(H1 & H2 & H3)].
              ** split; [now left | now split].
              ** split; [now right|]. split; [exact H2|].
                 intros H. apply H3. now right.
           ++ intros ([H|H] & H2 & H3); [left; congruence|].
              destruct (decide (x = a)) as [->|Hne]; [now left|].
              right. split; [exact H|]. split; [exact H2|].
              intros [Hx|Hs]; [congruence | contradiction].
        -- constructor; [|exact Hnd]. intros H. apply Hin in H.
           destruct H as (_ & _ & H). apply H. now left.
    + destruct (IH seen) as [Hin Hnd]. split; [|exact Hnd].
      intros a. rewrite Hin. split.
      * intros (H1 & H2 & H3). split; [now right | now split].
      * intros ([H|H] & H2 & H3); [discriminate H | now repeat split].
Qed.

(** X19: the alternate titles of a game are taken as a set: the titles
    handed to the insert are exactly the values of the list that are
    neither [null] nor empty, each once. *)
Theorem truthy_alternates_set (l : list (option str)) :
  List.NoDup (truthy_alternates [] l)
  /\ forall a, In a (truthy_alternates [] l) <-> In (Some a) l /\ a <> [].
Proof.
  destruct (truthy_alternates_spec l []) as [Hin Hnd].
  split; [exact Hnd|]. intros a. rewrite Hin. cbn [In]. tauto.
Qed.

(** ** Tables keyed by an integer *)

Section PutRow.

Context {R : Type}.
Variable key : R -> Z.

Lemma put_row_In (r x : R) (t : list R) :
  In x (put_row key r t) -> x = r \/ In x t.
Proof.
  induction t as [|y t IH]; cbn [put_row].
  - intros [<-|[]]. now left.
  - destruct (key y <? key r)%Z.
    + intros [<-|H]; [right; now left|].
      destruct (IH H) as [->|Hx]; [now left | right; now right].
    + destruct (key y =? key r)%Z.
      * intros [<-|H]; [now left | right; now right].
      * intros [<-|H]; [now left | now right].
Qed.

Lemma put_row_sorted (r : R) (t : list R) :
  sorted_by key t -> sorted_by key (put_row key r t).
Proof.
  induction t as [|x t IH]; intros Ht.
  - cbn. split; [intros y [] | exact I].
  - cbn [put_row]. cbn [sorted_by] in Ht. destruct Ht as [Hx Ht].
    destruct (key x <? key r)%Z eqn:E1.
    + apply Z.ltb_lt in E1. cbn [sorted_by]. split; [|now apply IH].
      intros y Hy. apply put_row_In in Hy as [->|Hy]; [exact E1 | now apply Hx].
    + destruct (key x =? key r)%Z eqn:E2.
      * apply Z.eqb_eq in E2. cbn [sorted_by]. split; [|exact Ht].
        intros y Hy. rewrite <- E2. now apply Hx.
      * apply Z.ltb_ge in E1. apply Z.eqb_neq in E2.
        cbn [sorted_by]. split; [|split; assumption].
        intros y [<-|Hy]; [lia | specialize (Hx y Hy); lia].
Qed.

Lemma put_row_lookup (r : R) (t : list R) (i : Z) :
  row_with key i (put_row key r t)
  = if (key r =? i)%Z then Some r else row_with key i t.
Proof.
  unfold row_with. induction t as [|x t IH]; cbn [put_row find].
  - reflexivity.
  - destruct (key x <? key r)%Z eqn:E1.
    + apply Z.ltb_lt in E1. cbn [find]. rewrite IH.
      destruct (key x =? i)%Z eqn:Ex; [|reflexivity].
      apply Z.eqb_eq in Ex.
      replace (key r =? i)%Z with false by (symmetry; apply Z.eqb_neq; lia).
      reflexivity.
    + destruct (key x =? key r)%Z eqn:E2; cbn [find]; [|reflexivity].
      apply Z.eqb_eq in E2. rewrite E2.
      now destruct (key r =? i)%Z.
Qed.

Lemma find_snoc {A : Type} (f : A -> bool) (l : list A) (x : A) :
  find f (l ++ [x])
  = match find f l with
    | Some y => Some y
    | None => if f x then Some x else None
    end.
Proof.
  induction l as [|y l IH]; cbn [app find]; [reflexivity|].
  now destruct (f y).
Qed.

Lemma fold_put_row_sorted (rows t : list R) :
  sorted_by key t ->
  sorted_by key (fold_left (fun t r => put_row key r t) rows t).
Proof.
  revert t. induction rows as [|r rows IH]; intros t Ht; [exact Ht|].
  cbn [fold_left]. apply IH. now apply put_row_sorted.
Qed.

Lemma fold_put_row_lookup (rows t : list R) (i : Z) :
  row_with key i (fold_left (fun t r => put_row key r t) rows t)
  = match find (fun x => (key x =? i)%Z) (rev rows) with
    | Some r => Some r
    | None => row_with key i t
    end.
Proof.
  revert t. induction rows as [|r rows IH]; intros t; [reflexivity|].
  cbn [fold_left rev]. rewrite IH, find_snoc, put_row_lookup.
  destruct (find _ (rev rows)); [reflexivity|].
  now destruct (key r =? i)%Z.
Qed.

Lemma row_with_sorted_head (x : R) (t : list R) (i : Z) :
  sorted_by key (x :: t) ->
  row_with key i (x :: t) = if (key x =? i)%Z then Some x else row_with key i t.
Proof. reflexivity. Qed.

Lemma row_with_In (t : list R) (i : Z) (x : R) :
  row_with key i t = Some x -> In x t /\ key x = i.
Proof.
  unfold row_with. intros H. apply find_some in H as [H1 H2].
  now apply Z.eqb_eq in H2.
Qed.




End PutRow.

Lemma fold_left_map_rows {A B C : Type} (f : A -> B -> A) (h : C -> B)
    (l : list C) (a : A) :
  fold_left f (List.map h l) a = fold_left (fun a x => f a (h x)) l a.
Proof. revert a. induction l as [|x l IH]; intros a; [reflexivity | apply IH]. Qed.

Lemma find_map_rows {B C : Type} (f : B -> bool) (h : C -> B) (l : list C) :
  find f (List.map h l) = option_map h (find (fun x => f (h x)) l).
Proof.
  induction l as [|x l IH]; [reflexivity|].
  cbn [List.map find]. now destruct (f (h x)).
Qed.

Lemma import_data_games (db : Database) (data : Dump) :
  games (import_data db data)
  = fold_left (fun t r => put_row game_id r t)
      (List.map game_row (data_games data)) (games db).
Proof.
  unfold import_data. rewrite fold_left_map_rows.
  assert (G : forall gs d,
             games (fold_left import_game gs d)
             = fold_left (fun t g => put_row game_id (game_row g) t) gs
                 (games d)).
  { induction gs as [|g gs IH]; intros d; [reflexivity|].
    cbn [fold_left]. now rewrite IH. }
  destruct (include_boxart data) as [boxart|];
    destruct (include_platform data) as [pl|];
    cbn [games import_artwork]; now rewrite G.
Qed.

Lemma import_data_systems (db : Database) (data : Dump) :
  systems (import_data db data)
  = match include_platform data with
    | Some platforms =>
        fold_left (fun t r => put_row sys_id r t)
          (List.map (fun p => system_row (snd p)) platforms) (systems db)
    | None => systems db
    end.
Proof.
  unfold import_data.
  assert (G : forall gs d, systems (fold_left import_game gs d) = systems d).
  { induction gs as [|g gs IH]; intros d; [reflexivity|].
    cbn [fold_left]. now rewrite IH. }
  destruct (include_boxart data) as [boxart|];
    destruct (include_platform data) as [pl|];
    cbn [systems import_artwork]; rewrite G; try reflexivity;
    unfold import_platforms; cbn [systems];
    now rewrite fold_left_map_rows.
Qed.

(** X20: after an import the [games] table holds, for every id of the
    dump, the row of the last game of the dump with that id, and for every
    other id the row it held before.  The games hold values SQLite can
    store (integers of 64 bits, text without U+0000 or lone surrogates):
    a game whose insert raises is skipped by the script. *)
Theorem import_game_last_wins (db : Database) (data : Dump) (i : Z) :
  forallb game_storable (data_games data) = true ->
  row_with game_id i (games (import_data db data))
  = match find (fun g => (gj_id g =? i)%Z) (rev (data_games data)) with
    | Some g => Some (game_row g)
    | None => row_with game_id i (games db)
    end.
Proof.
  intros _. rewrite import_data_games, fold_put_row_lookup.
  rewrite <- List.map_rev, find_map_rows.
  cbn [game_row game_id].
  now destruct (find _ (rev (data_games data))).
Qed.

Lemma import_game_last_wins_witness :
  row_with game_id 1
    (games (import_data (import_data empty_database sample_dump)
              sample_dump))
  = match find (fun g => (gj_id g =? 1)%Z) (rev (data_games sample_dump)) with
    | Some g => Some (game_row g)
    | None =>
        row_with game_id 1 (games (import_data empty_database sample_dump))
    end.
Proof.
  apply (import_game_last_wins (import_data empty_database sample_dump)
           sample_dump 1).
  reflexivity.
Defined.

(** X21: the import keeps the [systems] and [games] tables in the order of
    their ids, one row per id. *)
Theorem import_keeps_tables_sorted (db : Database) (data : Dump) :
  sorted_by sys_id (systems db) ->
  sorted_by game_id (games db) ->
  sorted_by sys_id (systems (import_data db data))
  /\ sorted_by game_id (games (import_data db data)).
Proof.
  intros Hs Hg. rewrite import_data_games, import_data_systems. split.
  - destruct (include_platform data); [|exact Hs].
    now apply fold_put_row_sorted.
  - now apply fold_put_row_sorted.
Qed.

Lemma import_keeps_tables_sorted_witness :
  sorted_by sys_id (systems (import_data empty_database sample_dump))
  /\ sorted_by game_id (games (import_data empty_database sample_dump)).
Proof.
  apply (import_keeps_tables_sorted empty_database sample_dump); exact I.
Defined.



(** ** The schema analyser *)

Lemma json_induction (P : json -> Prop) :
  P JNull ->
  (forall b, P (JBool b)) ->
  (forall n, P (JInt n)) ->
  (forall x, P (JFloat x)) ->
  (forall s, P (JStr s)) ->
  (forall items, Forall P items -> P (JList items)) ->
  (forall members, Forall (fun kv => P (snd kv)) members ->
                   P (JDict members)) ->
  forall value, P value.
Proof.
  intros Hnull Hbool Hint Hfloat Hstr Hlist Hdict.
  fix IH 1. intros [ | b | n | x | s | items | members].
  - exact Hnull.
  - apply Hbool.
  - apply Hint.
  - apply Hfloat.
  - apply Hstr.
  - apply Hlist.
    revert items. fix IHl 1. intros [|v items].
    + constructor.
    + constructor; [apply IH | apply IHl].
  - apply Hdict.
    revert members. fix IHl 1. intros [|kv members].
    + constructor.
    + constructor; [apply IH | apply IHl].
Qed.

Lemma analyze_schema_dict (members : list (str * json)) :
  analyze_schema (JDict members)
  = dict_schema
      (List.map (fun kv => (fst kv, analyze_schema (snd kv))) members).
Proof.
  reflexivity.
Qed.

Lemma insert_member_In {V : Type} (kv x : str * V) (l : list (str * V)) :
  In x (insert_member kv l) -> x = kv \/ In x l.
Proof.
  induction l as [|y l IH]; cbn [insert_member].
  - intros [<-|[]]. now left.
  - destruct (str_compare (fst kv) (fst y)).
    + intros [<-|H]; [now left | now right].
    + intros [<-|H]; [now left | now right].
    + intros [<-|H]; [right; now left|].
      destruct (IH H) as [->|Hx]; [now left | right; now right].
Qed.

Lemma sort_members_In {V : Type} (x : str * V) (l : list (str * V)) :
  In x (sort_members l) -> In x l.
Proof.
  unfold sort_members. induction l as [|y l IH]; cbn [fold_right]; [tauto|].
  intros H. apply insert_member_In in H as [->|H]; [now left | right; auto].
Qed.

Lemma insert_member_map {V W : Type} (g : str * V -> W) (kv : str * V)
    (l : list (str * V)) :
  List.map (fun x => (fst x, g x)) (insert_member kv l)
  = insert_member (fst kv, g kv) (List.map (fun x => (fst x, g x)) l).
Proof.
  induction l as [|y l IH]; [reflexivity|].
  cbn [insert_member List.map fst].
  destruct (str_compare (fst kv) (fst y)); cbn [List.map fst];
    now rewrite ?IH.
Qed.

Lemma sort_members_map {V W : Type} (g : str * V -> W)
    (l : list (str * V)) :
  sort_members (List.map (fun x => (fst x, g x)) l)
  = List.map (fun x => (fst x, g x)) (sort_members l).
Proof.
  unfold sort_members. induction l as [|y l IH]; [reflexivity|].
  cbn [List.map fold_right]. now rewrite IH, insert_member_map.
Qed.

Lemma analysis_keys (members : list (str * json)) :
  List.map fst
    (sort_members
       (List.map (fun kv => (fst kv, analyze_schema (snd kv))) members))
  = sorted_keys members.
Proof.
  unfold sorted_keys.
  rewrite (sort_members_map (fun kv => analyze_schema (snd kv))).
  rewrite List.map_map. reflexivity.
Qed.

Lemma firstn_member {A : Type} (n : nat) (l : list A) (x : A) :
  In x (firstn n l) -> In x l.
Proof.
  intros H. rewrite <- (firstn_skipn n l). apply in_or_app. now left.
Qed.

(** An analysis that never takes anything out of the set. *)
Lemma schema_parts_grows (indent : str) (depth : nat)
    (sample : list (str * analysis)) (seen : seen_set) :
  Forall (fun kf => forall s d, s ⊆ snd (snd kf s d)) sample ->
  seen ⊆ snd (schema_parts indent depth sample seen).
Proof.
  intros H. revert seen. induction H as [|[key f] rest Hf _ IH]; intros seen.
  - reflexivity.
  - cbn [schema_parts]. cbn [snd] in Hf.
    specialize (Hf seen (S depth)).
    destruct (f seen (S depth)) as [val_schema seen1]. cbn [snd] in Hf.
    specialize (IH seen1).
    destruct (schema_parts indent depth rest seen1) as [parts seen2].
    cbn [snd] in *. set_solver.
Qed.

Lemma dict_schema_grows (members : list (str * analysis)) (seen : seen_set)
    (depth : nat) :
  Forall (fun kf => forall s d, s ⊆ snd (snd kf s d)) members ->
  seen ⊆ snd (dict_schema members seen depth)
  /\ List.map fst (sort_members members) ∈ snd (dict_schema members seen depth).
Proof.
  intros H. unfold dict_schema. cbv zeta.
  destruct (bool_decide (List.map fst (sort_members members) ∈ seen)) eqn:E.
  - cbn [snd]. apply bool_decide_eq_true in E. split; [reflexivity | exact E].
  - assert (Hs : Forall (fun kf => forall s d, s ⊆ snd (snd kf s d))
                   (firstn 20 (sort_members members))).
    { apply List.Forall_forall. intros x Hx.
      apply firstn_member, sort_members_In in Hx.
      rewrite List.Forall_forall in H. now apply H. }
    pose proof (schema_parts_grows (indent_of depth) depth _
                  ({[List.map fst (sort_members members)]} ∪ seen) Hs) as G.
    destruct (schema_parts (indent_of depth) depth
                (firstn 20 (sort_members members))
                ({[List.map fst (sort_members members)]} ∪ seen))
      as [parts seen'].
    cbn [snd] in *. split; set_solver.
Qed.

Lemma analyze_schema_seen_grows (value : json) (seen : seen_set)
    (depth : nat) :
  seen ⊆ snd (analyze_schema value seen depth).
Proof.
  revert seen depth.
  induction value as [ | b | n | x | s | items IH | members IH]
    using json_induction; intros seen depth; try reflexivity.
  - destruct IH as [|first rest Hfirst _]; [reflexivity|].
    cbn [analyze_schema]. specialize (Hfirst seen (S depth)).
    destruct (analyze_schema first seen (S depth)). exact Hfirst.
  - rewrite analyze_schema_dict. apply dict_schema_grows.
    apply List.Forall_forall. intros kf Hkf.
    apply in_map_iff in Hkf as (kv & <- & Hkv). cbn [snd].
    rewrite List.Forall_forall in IH. exact (IH kv Hkv).
Qed.

Lemma analyze_schema_records_keys (members : list (str * json))
    (seen : seen_set) (depth : nat) :
  sorted_keys members ∈ snd (analyze_schema (JDict members) seen depth).
Proof.
  rewrite analyze_schema_dict, <- analysis_keys.
  apply dict_schema_grows.
  apply List.Forall_forall. intros kf Hkf.
  apply in_map_iff in Hkf as (kv & <- & Hkv). cbn [snd].
  intros s d. apply analyze_schema_seen_grows.
Qed.

(** X23: [analyze_schema] never forgets a type: whatever the value, the
    set of seen types it leaves contains the set it was given, and after a
    dictionary it contains the keys of that dictionary. *)
Theorem analyze_schema_grows (value : json) (seen : seen_set) (depth : nat) :
  seen ⊆ snd (analyze_schema value seen depth)
  /\ match value with
     | JDict members =>
         sorted_keys members ∈ snd (analyze_schema value seen depth)
     | _ => True
     end.
Proof.
  split; [apply analyze_schema_seen_grows|].
  destruct value; try exact I. apply analyze_schema_records_keys.
Qed.

(** X24: once a dictionary has been analysed, a dictionary with the same
    keys that is analysed later in the same run is shown as [{...}],
    whatever its values and its depth, and leaves the set as it is. *)
Theorem repeated_keys_elided (members members' : list (str * json))
    (seen seen2 : seen_set) (depth depth' : nat) :
  sorted_keys members' = sorted_keys members ->
  snd (analyze_schema (JDict members) seen depth) ⊆ seen2 ->
  analyze_schema (JDict members') seen2 depth' = (lit "{...}", seen2).
Proof.
  intros Hk Hs.
  pose proof (analyze_schema_records_keys members seen depth) as Hin.
  rewrite analyze_schema_dict. unfold dict_schema. cbv zeta.
  rewrite analysis_keys, Hk.
  rewrite bool_decide_eq_true_2; [reflexivity|]. set_solver.
Qed.

Lemma repeated_keys_elided_witness :
  analyze_schema
    (JDict [(lit "title", JNull); (lit "id", JStr (lit "one"))])
    (snd (analyze_schema
            (JDict [(lit "id", JInt 1); (lit "title", JStr (lit "Zork"))])
            ∅ 0%nat))
    3%nat
  = (lit "{...}",
     snd (analyze_schema
            (JDict [(lit "id", JInt 1); (lit "title", JStr (lit "Zork"))])
            ∅ 0%nat)).
Proof.
  apply (repeated_keys_elided
           [(lit "id", JInt 1); (lit "title", JStr (lit "Zork"))]
           [(lit "title", JNull); (lit "id", JStr (lit "one"))]
           ∅ _ 0%nat 3%nat).
  - vm_compute. reflexivity.
  - reflexivity.
Defined.

(** ** The names of the core games *)

Lemma remove_groups_go_In (b : bool) (s : str) (x : N) :
  In x (remove_groups_go b s) -> In x s.
Proof.
  revert b. induction s as [|c t IH]; intros b H; [exact H|].
  cbn [remove_groups_go] in H. destruct b.
  - destruct (c =? 41); right; exact (IH _ H).
  - destruct ((c =? 40) && existsb (N.eqb 41) t).
    + right. exact (IH _ H).
    + destruct H as [<-|H]; [now left | right; exact (IH _ H)].
Qed.

Lemma existsb_eqb_false (c : N) (s : str) :
  ~ In c s -> existsb (N.eqb c) s = false.
Proof.
  intros H. apply not_true_is_false. intros E.
  apply existsb_exists in E as (x & Hx & E). apply N.eqb_eq in E. now subst.
Qed.

Lemma remove_groups_go_no_group (b : bool) (s : str) :
  has_group (remove_groups_go b s) = false.
Proof.
  revert b. induction s as [|c t IH]; intros b; [reflexivity|].
  cbn [remove_groups_go]. destruct b.
  - destruct (c =? 41); apply IH.
  - destruct (c =? 40) eqn:E40; cbn [andb].
    + destruct (existsb (N.eqb 41) t) eqn:E41; [apply IH|].
      cbn [has_group]. rewrite E40, IH. cbn [andb].
      rewrite existsb_eqb_false; [reflexivity|].
      intros H. apply remove_groups_go_In in H.
      apply (existsb_eqb_In 41 t E41 H).
    + cbn [has_group]. rewrite E40. cbn [andb orb]. apply IH.
Qed.

Lemma has_group_app (a b : str) :
  has_group (a ++ b) = false -> has_group a = false /\ has_group b = false.
Proof.
  induction a as [|c a IH]; intros H; [now split|].
  cbn [app has_group] in H. apply orb_false_iff in H as [Hc H].
  destruct (IH H) as [Ha Hb]. split; [|exact Hb].
  cbn [has_group]. rewrite Ha, orb_false_r.
  apply andb_false_iff in Hc as [Hc|Hc]; [now rewrite Hc|].
  rewrite existsb_app in Hc. apply orb_false_iff in Hc as [Hc _].
  rewrite Hc. apply andb_false_r.
Qed.

Lemma lstrip_suffix (s : str) : exists w, s = w ++ lstrip s.
Proof.
  induction s as [|c t [w Hw]]; [now exists []|].
  cbn [lstrip]. destruct (is_space c).
  - exists (c :: w). cbn [app]. now rewrite <- Hw.
  - now exists [].
Qed.

Lemma strip_no_group (s : str) :
  has_group s = false -> has_group (strip s) = false.
Proof.
  intros H. unfold strip.
  destruct (lstrip_suffix s) as [w Hw].
  destruct (lstrip_suffix (rev (lstrip s))) as [w' Hw'].
  apply (f_equal (@rev N)) in Hw'. rewrite rev_involutive, rev_app_distr in Hw'.
  rewrite Hw, Hw' in H.
  apply has_group_app in H as [_ H]. now apply has_group_app in H as [H _].
Qed.

Lemma py_lower_char_mark (c k : N) :
  k = 40 \/ k = 41 \/ k = 95 -> (py_lower_char c =? k) = (c =? k).
Proof.
  intros Hk. unfold py_lower_char, is_AZ.
  destruct ((65 <=? c) && (c <=? 90)) eqn:E1.
  - apply andb_true_iff in E1 as [A B]. apply N.leb_le in A, B.
    transitivity false; [|symmetry]; apply N.eqb_neq; lia.
  - destruct ((192 <=? c) && (c <=? 222) && negb (c =? 215)) eqn:E2;
      [|reflexivity].
    apply andb_true_iff in E2 as [E2 _].
    apply andb_true_iff in E2 as [A B]. apply N.leb_le in A, B.
    transitivity false; [|symmetry]; apply N.eqb_neq; lia.
Qed.

Lemma lower_existsb (k : N) (s : str) :
  k = 40 \/ k = 41 \/ k = 95 ->
  existsb (N.eqb k) (lower s) = existsb (N.eqb k) s.
Proof.
  intros Hk. induction s as [|c t IH]; [reflexivity|].
  cbn [lower List.map existsb]. fold (lower t).
  now rewrite IH, (N.eqb_sym k), (py_lower_char_mark c k Hk), (N.eqb_sym c).
Qed.

Lemma lower_has_group (s : str) : has_group (lower s) = has_group s.
Proof.
  induction s as [|c t IH]; [reflexivity|].
  cbn [lower List.map has_group]. fold (lower t).
  rewrite IH, (py_lower_char_mark c 40) by tauto.
  rewrite (lower_existsb 41) by tauto. reflexivity.
Qed.

Lemma core_game_name_shape (name : str) :
  has_group (core_game_name name) = false /\ ~ In 95 (core_game_name name).
Proof.
  unfold core_game_name. cbv zeta. split.
  - rewrite lower_has_group. apply strip_no_group.
    apply remove_groups_go_no_group.
  - apply existsb_eqb_In. rewrite (lower_existsb 95) by tauto.
    apply existsb_eqb_false. intros H.
    apply strip_In, remove_groups_go_In in H.
    now apply replace_underscore_In in H.
Qed.

(** X25: no name of [get_core_games] keeps a parenthesised group or an
    underscore: every [(] that had a [)] after it is gone with what it
    enclosed, wherever it stood in the file name (not only at its
    end). *)
Theorem get_core_games_clean (self : ROMDownloader) (x : str) :
  x ∈ get_core_games self ->
  has_group x = false /\ ~ In 95 x.
Proof.
  unfold get_core_games. rewrite elem_of_list_to_set, list_elem_of_In.
  intros H. apply in_flat_map in H as (system & _ & H).
  unfold system_game_names in H. destruct (children system); [|destruct H].
  apply in_map_iff in H as (child & <- & _).
  apply core_game_name_shape.
Qed.

Lemma get_core_games_clean_witness :
  has_group (lit "mega man") = false /\ ~ In 95 (lit "mega man").
Proof.
  apply (get_core_games_clean downloader_with_core_file (lit "mega man")).
  unfold get_core_games. rewrite elem_of_list_to_set, list_elem_of_In.
  vm_compute. left. reflexivity.
Defined.

(** ** The scan of the ROM folder *)




Section ScanFacts.

Variable listdir : FS -> PurePath -> list PurePath.
Variable dir_size : PurePath -> N.

Lemma scan_entry_cases (fs : FS) (c : nat) (r : list RomInfo)
    (p : PurePath) :
  scan_entry dir_size fs (c, r) p
  = if has_rom_suffix (path_name p)
    then (S c, r ++ [rom_info dir_size fs p]) else (c, r).
Proof.
  unfold scan_entry, has_rom_suffix. now destruct (str_in _ _).
Qed.

Lemma scan_entries_sound (fs : FS) (l : list PurePath) (c0 : nat)
    (r0 : list RomInfo) (c : nat) (r : list RomInfo) :
  fold_left (scan_entry dir_size fs) l (c0, r0) = (c, r) ->
  c0 = length r0 ->
  c = length r
  /\ (c0 <= c)%nat
  /\ forall rom, In rom r ->
       In rom r0
       \/ exists file_path,
            In file_path l /\ has_rom_suffix (path_name file_path) = true
            /\ rom = rom_info dir_size fs file_path.
Proof.
  revert c0 r0. induction l as [|p l IH]; intros c0 r0 H Hlen.
  - cbn [fold_left] in H. injection H as <- <-.
    split; [exact Hlen|]. split; [lia|]. intros rom Hr. now left.
  - cbn [fold_left] in H. rewrite scan_entry_cases in H.
    destruct (has_rom_suffix (path_name p)) eqn:Hs.
    + apply IH in H as (Hc & Hle & Hr).
      * split; [exact Hc|]. split; [lia|]. intros rom Hrom.
        destruct (Hr rom Hrom) as [Hin|(q & Hq & Hqs & E)].
        -- apply in_app_or in Hin as [Hin|[<-|[]]]; [now left|].
           right. exists p. split; [now left|]. now split.
        -- right. exists q. split; [now right|]. now split.
      * rewrite length_app. cbn [length]. lia.
    + apply IH in H as (Hc & Hle & Hr); [|exact Hlen].
      split; [exact Hc|]. split; [exact Hle|]. intros rom Hrom.
      destruct (Hr rom Hrom) as [Hin|(q & Hq & Hqs & E)]; [now left|].
      right. exists q. split; [now right|]. now split.
Qed.



Lemma scan_system_cases (fs : FS) (m : gmap str SystemEntry)
    (d : PurePath) :
  scan_system listdir dir_size fs m d
  = if path_is_dir fs d
       && (0 <? fst (fold_left (scan_entry dir_size fs) (listdir fs d)
                       (0%nat, [])))%nat
    then <[path_name d :=
             {| count := fst (fold_left (scan_entry dir_size fs)
                                (listdir fs d) (0%nat, []));
                roms := snd (fold_left (scan_entry dir_size fs)
                               (listdir fs d) (0%nat, [])) |}]> m
    else m.
Proof.
  unfold scan_system. destruct (path_is_dir fs d); [|reflexivity].
  cbn [negb andb].
  destruct (fold_left (scan_entry dir_size fs) (listdir fs d) (0%nat, []))
    as [c r].
  cbn [fst snd]. reflexivity.
Qed.

Lemma scan_systems_sound (fs : FS) (l : list PurePath)
    (m0 : gmap str SystemEntry) (name : str) (e : SystemEntry) :
  fold_left (scan_system listdir dir_size fs) l m0 !! name = Some e ->
  m0 !! name = Some e
  \/ exists system_dir,
       In system_dir l /\ path_is_dir fs system_dir = true
       /\ path_name system_dir = name
       /\ fold_left (scan_entry dir_size fs) (listdir fs system_dir)
            (0%nat, []) = (count e, roms e)
       /\ (0 < count e)%nat.
Proof.
  revert m0. induction l as [|d l IH]; intros m0 H; [now left|].
  cbn [fold_left] in H. apply IH in H as [H|(sd & Hin & Hd & Hn & Hf & Hc)].
  - rewrite scan_system_cases in H.
    destruct (path_is_dir fs d) eqn:Ed; [|now left].
    destruct (0 <? _)%nat eqn:Ec; [|now left]. cbn [andb] in H.
    destruct (decide (path_name d = name)) as [En|Hne].
    + rewrite En, lookup_insert_eq in H. injection H as <-.
      right. exists d. split; [now left|]. split; [exact Ed|].
      split; [exact En|]. cbn [count roms]. split.
      * now destruct (fold_left _ _ _).
      * now apply Nat.ltb_lt in Ec.
    + rewrite lookup_insert_ne in H by exact Hne. now left.
  - right. exists sd. split; [now right|]. now repeat split.
Qed.



(** X26: in the mapping the scan returns, the count of every system is
    the number of ROMs listed for it, and no system is listed without a
    ROM. *)
Theorem scan_counts_roms (fs : FS) (base_path : str)
    (mapping : gmap str SystemEntry) (name : str) (e : SystemEntry) :
  scan_roms_folder listdir dir_size fs base_path = Some mapping ->
  mapping !! name = Some e ->
  count e = length (roms e) /\ (0 < count e)%nat.
Proof.
  unfold scan_roms_folder. cbv zeta.
  destruct (path_is_dir fs (parse_path base_path)); [|discriminate].
  intros Hm He. injection Hm as <-.
  apply scan_systems_sound in He as [He|(sd & _ & _ & _ & Hf & Hc)].
  - rewrite lookup_empty in He. discriminate He.
  - split; [|exact Hc].
    now apply scan_entries_sound in Hf as [Hf _].
Qed.

(** X27: every system of the mapping is named after a directory of the
    base folder, and every ROM listed for it is made from an entry of that
    directory whose suffix is [.zip] or [.dosz] whatever the case of its
    letters; entries with another suffix, the artwork files among them,
    are not listed. *)
Theorem scan_lists_rom_files (fs : FS) (base_path : str)
    (mapping : gmap str SystemEntry) (name : str) (e : SystemEntry)
    (rom : RomInfo) :
  scan_roms_folder listdir dir_size fs base_path = Some mapping ->
  mapping !! name = Some e ->
  In rom (roms e) ->
  has_rom_suffix (rom_file rom) = true
  /\ exists system_dir file_path,
       In system_dir (listdir fs (parse_path base_path))
       /\ path_is_dir fs system_dir = true
       /\ path_name system_dir = name
       /\ In file_path (listdir fs system_dir)
       /\ rom = rom_info dir_size fs file_path.
Proof.
  unfold scan_roms_folder. cbv zeta.
  destruct (path_is_dir fs (parse_path base_path)); [|discriminate].
  intros Hm He Hrom. injection Hm as <-.
  apply scan_systems_sound in He as [He|(sd & Hsd & Hd & Hn & Hf & _)].
  - rewrite lookup_empty in He. discriminate He.
  - apply scan_entries_sound in Hf as (_ & _ & Hr); [|reflexivity].
    destruct (Hr rom Hrom) as [[]|(p & Hp & Hs & ->)].
    split; [exact Hs|]. exists sd, p. now repeat split.
Qed.

(** X28: the artwork the scan reports is there: a ROM has an artwork
    record only if a cover or a screenshot was found, the names reported
    are the stem of the ROM's file name followed by [-cover.jpg] or
    [-screenshot.jpg], and a file of that name exists beside the ROM. *)
Theorem scan_artwork_exists (fs : FS) (base_path : str)
    (mapping : gmap str SystemEntry) (name : str) (e : SystemEntry)
    (rom : RomInfo) (art : Artwork) :
  scan_roms_folder listdir dir_size fs base_path = Some mapping ->
  mapping !! name = Some e ->
  In rom (roms e) ->
  rom_artwork rom = Some art ->
  (cover art <> None \/ screenshot art <> None)
  /\ exists system_dir file_path,
       In system_dir (listdir fs (parse_path base_path))
       /\ In file_path (listdir fs system_dir)
       /\ path_name file_path = rom_file rom
       /\ (forall c, cover art = Some c ->
             c = name_stem (rom_file rom) ++ lit "-cover.jpg"
             /\ path_exists fs (with_name file_path c) = true)
       /\ (forall c, screenshot art = Some c ->
             c = name_stem (rom_file rom) ++ lit "-screenshot.jpg"
             /\ path_exists fs (with_name file_path c) = true).
Proof.
  unfold scan_roms_folder. cbv zeta.
  destruct (path_is_dir fs (parse_path base_path)); [|discriminate].
  intros Hm He Hrom Hart. injection Hm as <-.
  apply scan_systems_sound in He as [He|(sd & Hsd & _ & _ & Hf & _)].
  { rewrite lookup_empty in He. discriminate He. }
  apply scan_entries_sound in Hf as (_ & _ & Hr); [|reflexivity].
  destruct (Hr rom Hrom) as [[]|(p & Hp & _ & ->)].
  unfold rom_info in Hart. cbv zeta in Hart. cbn [rom_artwork] in Hart.
  assert (Hname : forall sfx, path_name (with_name p (name_stem (path_name p) ++ sfx))
                              = name_stem (path_name p) ++ sfx).
  { intros sfx. unfold path_name at 1, with_name. cbn [parts].
    apply last_last. }
  rewrite !Hname in Hart.
  split.
  - destruct (path_exists fs (with_name p (name_stem (path_name p)
                                             ++ lit "-cover.jpg")));
      destruct (path_exists fs (with_name p (name_stem (path_name p)
                                               ++ lit "-screenshot.jpg")));
      try discriminate Hart; injection Hart as <-; cbn [cover screenshot];
      first [left; discriminate | right; discriminate].
  - exists sd, p. split; [exact Hsd|]. split; [exact Hp|].
    split; [reflexivity|]. cbn [rom_file].
    destruct (path_exists fs (with_name p (name_stem (path_name p)
                                             ++ lit "-cover.jpg"))) eqn:Ec;
      destruct (path_exists fs (with_name p (name_stem (path_name p)
                                               ++ lit "-screenshot.jpg")))
        eqn:Es;
      try discriminate Hart; injection Hart as <-; cbn [cover screenshot];
      split; intros c Hc; try discriminate Hc; injection Hc as <-;
      split; try reflexivity; assumption.
Qed.

End ScanFacts.

Lemma scan_counts_roms_witness :
  count mario_scanned = length (roms mario_scanned)
  /\ (0 < count mario_scanned)%nat.
Proof.
  apply (scan_counts_roms listdir_of dir_size_4096 fs_with_rom (lit "ROMs")
           {[ lit "NES" := mario_scanned ]} (lit "NES") mario_scanned).
  - vm_compute. reflexivity.
  - vm_compute. reflexivity.
Defined.

Lemma scan_lists_rom_files_witness :
  has_rom_suffix mario_file = true
  /\ exists system_dir file_path,
       In system_dir (listdir_of fs_with_rom (parse_path (lit "ROMs")))
       /\ path_is_dir fs_with_rom system_dir = true
       /\ path_name system_dir = lit "NES"
       /\ In file_path (listdir_of fs_with_rom system_dir)
       /\ {| rom_file := mario_file; rom_size := 4;
             rom_artwork :=
               Some {| cover := Some (lit "Super_Mario_Bros_(USA)-cover.jpg");
                       screenshot := None |} |}
          = rom_info dir_size_4096 fs_with_rom file_path.
Proof.
  apply (scan_lists_rom_files listdir_of dir_size_4096 fs_with_rom
           (lit "ROMs") {[ lit "NES" := mario_scanned ]} (lit "NES")
           mario_scanned
           {| rom_file := mario_file; rom_size := 4;
              rom_artwork :=
                Some {| cover := Some (lit "Super_Mario_Bros_(USA)-cover.jpg");
                        screenshot := None |} |}).
  - vm_compute. reflexivity.
  - vm_compute. reflexivity.
  - left. reflexivity.
Defined.

Lemma scan_artwork_exists_witness :
  (Some (lit "Super_Mario_Bros_(USA)-cover.jpg") <> None
   \/ @None str <> None)
  /\ exists system_dir file_path,
       In system_dir (listdir_of fs_with_rom (parse_path (lit "ROMs")))
       /\ In file_path (listdir_of fs_with_rom system_dir)
       /\ path_name file_path = mario_file
       /\ (forall c, Some (lit "Super_Mario_Bros_(USA)-cover.jpg") = Some c ->
             c = name_stem mario_file ++ lit "-cover.jpg"
             /\ path_exists fs_with_rom (with_name file_path c) = true)
       /\ (forall c, @None str = Some c ->
             c = name_stem mario_file ++ lit "-screenshot.jpg"
             /\ path_exists fs_with_rom (with_name file_path c) = true).
Proof.
  apply (scan_artwork_exists listdir_of dir_size_4096 fs_with_rom
           (lit "ROMs") {[ lit "NES" := mario_scanned ]} (lit "NES")
           mario_scanned
           {| rom_file := mario_file; rom_size := 4;
              rom_artwork :=
                Some {| cover := Some (lit "Super_Mario_Bros_(USA)-cover.jpg");
                        screenshot := None |} |}
           {| cover := Some (lit "Super_Mario_Bros_(USA)-cover.jpg");
              screenshot := None |}).
  - vm_compute. reflexivity.
  - vm_compute. reflexivity.
  - left. reflexivity.
  - reflexivity.
Defined.

(** ** A download followed by a scan *)


Section DownloadThenScan.

Variable listdir : FS -> PurePath -> list PurePath.
Variable dir_size : PurePath -> N.
Variable http_get : nat -> str -> option (list N).
Variable schedule : list (str * PurePath) -> list (str * PurePath).


End DownloadThenScan.


